(** * kernel_list.h: the intrusive circular doubly-linked list

    A shallow embedding of [src/kernel_list.h].  Memory is a finite map
    from addresses to [list_head] structures; every C function is a
    computation in a state-and-error monad over that memory, where an
    access through a pointer that is not the address of a live
    [list_head] (NULL included) is the undefined behaviour of C and is
    represented by [None]. *)

From stdpp Require Import base option list gmap fin_maps.
From Stdlib Require Import ZArith Lia.

Local Open Scope Z_scope.
Set Warnings "-clear-no-such-hyp".

(** ** Addresses and the [list_head] structure *)

(** A pointer value.  [NULL] is address 0. *)
Abbreviation addr := Z (only parsing).

Definition NULL : addr := 0.

(** [typedef struct list_head { struct list_head *next, *prev; } list_head_t;] *)
Record list_head : Type := mk_list_head {
  next : addr;
  prev : addr
}.

Global Instance list_head_eq_dec : EqDecision list_head.
Proof. solve_decision. Defined.

(** The memory: the live [list_head] objects, by address. *)
Abbreviation heap := (gmap Z list_head) (only parsing).

(** The poison constants.  The header selects between the kernel's
    values and NULL with [#if 0 ... #else ... #endif]; the condition is
    the literal 0, so the [#else] branch is the one compiled. *)
Definition POISON_CONFIGURED : bool := false.
Definition POISON_POINTER_DELTA : Z := 0.

Definition LIST_POISON1 : addr :=
  if POISON_CONFIGURED then 0x00100100 + POISON_POINTER_DELTA else NULL.
Definition LIST_POISON2 : addr :=
  if POISON_CONFIGURED then 0x00200200 + POISON_POINTER_DELTA else NULL.

(** ** The monad of C statements over the memory *)

Definition M (A : Type) : Type := gmap Z list_head → option (A * gmap Z list_head).

Definition ret {A} (a : A) : M A := λ h, Some (a, h).

Definition bind {A B} (m : M A) (f : A → M B) : M B :=
  λ h, match m h with
       | Some (a, h') => f a h'
       | None => None
       end.

Definition fault {A} : M A := λ _, None.

Global Instance M_ret : MRet M := @ret.
Global Instance M_bind : MBind M := λ A B f m, bind m f.

(** [p->next] and [p->prev] as rvalues. *)
Definition load_next (p : addr) : M addr :=
  λ h, match h !! p with
       | Some l => Some (next l, h)
       | None => None
       end.

Definition load_prev (p : addr) : M addr :=
  λ h, match h !! p with
       | Some l => Some (prev l, h)
       | None => None
       end.

(** [p->next = v;] and [p->prev = v;] *)
Definition set_next (v : addr) (l : list_head) : list_head :=
  {| next := v; prev := prev l |}.
Definition set_prev (v : addr) (l : list_head) : list_head :=
  {| next := next l; prev := v |}.

Definition store_next (p v : addr) : M unit :=
  λ h, match h !! p with
       | Some l => Some (tt, <[p := set_next v l]> h)
       | None => None
       end.

Definition store_prev (p v : addr) : M unit :=
  λ h, match h !! p with
       | Some l => Some (tt, <[p := set_prev v l]> h)
       | None => None
       end.

(** ** The list operations *)

(** [#define LIST_HEAD_INIT(name) { &(name), &(name) }]: the initial value
    of a list head declared at address [name]. *)
Definition LIST_HEAD_INIT (name : addr) : list_head :=
  {| next := name; prev := name |}.

(** [list->next = list; list->prev = list;] *)
Definition INIT_LIST_HEAD (list : addr) : M unit :=
  store_next list list;;
  store_prev list list.

(** [next_node->prev = new_node; new_node->next = next_node;
     new_node->prev = prev_node; prev_node->next = new_node;] *)
Definition __list_add (new_node prev_node next_node : addr) : M unit :=
  store_prev next_node new_node;;
  store_next new_node next_node;;
  store_prev new_node prev_node;;
  store_next prev_node new_node.

(** [__list_add(new_node, head_node, head_node->next);] *)
Definition list_add (new_node head_node : addr) : M unit :=
  n ← load_next head_node;
  __list_add new_node head_node n.

(** [__list_add(new_node, head_node->prev, head_node);] *)
Definition list_add_tail (new_node head_node : addr) : M unit :=
  p ← load_prev head_node;
  __list_add new_node p head_node.

(** [next_node->prev = prev_node; prev_node->next = next_node;] *)
Definition __list_del (prev_node next_node : addr) : M unit :=
  store_prev next_node prev_node;;
  store_next prev_node next_node.

(** [__list_del(entry_node->prev, entry_node->next);
     entry_node->next = LIST_POISON1; entry_node->prev = LIST_POISON2;] *)
Definition list_del (entry_node : addr) : M unit :=
  p ← load_prev entry_node;
  n ← load_next entry_node;
  __list_del p n;;
  store_next entry_node LIST_POISON1;;
  store_prev entry_node LIST_POISON2.

(** [return head_node->next == head_node;]  The [int] result, 0 or 1,
    is a [bool] here. *)
Definition list_empty (head_node : addr) : M bool :=
  n ← load_next head_node;
  ret (bool_decide (n = head_node)).

(** [new_node->next = old_node->next; new_node->next->prev = new_node;
     new_node->prev = old_node->prev; new_node->prev->next = new_node;] *)
Definition list_replace (old_node new_node : addr) : M unit :=
  n ← load_next old_node;
  store_next new_node n;;
  n' ← load_next new_node;
  store_prev n' new_node;;
  p ← load_prev old_node;
  store_prev new_node p;;
  p' ← load_prev new_node;
  store_next p' new_node.

(** [list_replace(old_node, new_node); INIT_LIST_HEAD(old_node);] *)
Definition list_replace_init (old_node new_node : addr) : M unit :=
  list_replace old_node new_node;;
  INIT_LIST_HEAD old_node.

(** ** Entry recovery

    Pointer arithmetic is done at the width of a pointer: [ptr_bits] is
    the number of bits of [size_t] and of an address on the target, and
    the embedding structure type is represented by what the macros use of
    it, the byte offset [k] of its [list_head] member. *)

Section Embedding.
Variable ptr_bits : Z.

Definition ptr_wrap (z : Z) : addr := z mod 2 ^ ptr_bits.

Definition valid_ptr (p : addr) : Prop := 0 ≤ p < 2 ^ ptr_bits.

(** [&((type * )base)->member] *)
Definition member_addr (base : addr) (k : Z) : addr := ptr_wrap (base + k).

(** [#define offsetof(type, member) (size_t)(&((type * )0)->member)] *)
Definition offsetof (k : Z) : Z := member_addr 0 k.

(** [#define container_of(ptr, type, member)
      (type * )((char * )__mptr - offsetof(type, member))] *)
Definition container_of (ptr : addr) (k : Z) : addr :=
  ptr_wrap (ptr - offsetof k).

Definition list_entry (ptr : addr) (k : Z) : addr := container_of ptr k.

(** [list_entry((ptr)->next, type, member)] *)
Definition list_first_entry (ptr : addr) (k : Z) : M addr :=
  n ← load_next ptr;
  mret (list_entry n k).

(** [list_entry((pos)->member.next, typeof( *(pos)), member)] *)
Definition list_next_entry (pos : addr) (k : Z) : M addr :=
  n ← load_next (member_addr pos k);
  mret (list_entry n k).
End Embedding.

(** ** Traversal

    The [for] loops of the traversal macros.  The loop body is a
    parameter: it receives the cursor and the caller's local state [A],
    and returns the new local state.  [fuel] bounds the number of times
    the loop condition is evaluated; a loop that needs more yields
    [None], like one that faults. *)

Section Traversal.
Context {A : Type}.

(** [for (pos = (head)->next; pos != (head); pos = pos->next)] *)
Fixpoint list_for_each_from (fuel : nat) (head : addr)
    (body : addr → A → M A) (pos : addr) (acc : A) : M A :=
  match fuel with
  | O => fault
  | S fuel' =>
      if decide (pos = head) then mret acc
      else
        acc' ← body pos acc;
        pos' ← load_next pos;
        list_for_each_from fuel' head body pos' acc'
  end.

Definition list_for_each (fuel : nat) (head : addr)
    (body : addr → A → M A) (acc : A) : M A :=
  pos ← load_next head;
  list_for_each_from fuel head body pos acc.

Variable ptr_bits : Z.

(** [for (pos = list_first_entry(head, typeof( *pos), member);
         &pos->member != (head);
         pos = list_next_entry(pos, member))] *)
Fixpoint list_for_each_entry_from (fuel : nat) (k : Z) (head : addr)
    (body : addr → A → M A) (pos : addr) (acc : A) : M A :=
  match fuel with
  | O => fault
  | S fuel' =>
      if decide (member_addr ptr_bits pos k = head) then mret acc
      else
        acc' ← body pos acc;
        pos' ← list_next_entry ptr_bits pos k;
        list_for_each_entry_from fuel' k head body pos' acc'
  end.

Definition list_for_each_entry (fuel : nat) (k : Z) (head : addr)
    (body : addr → A → M A) (acc : A) : M A :=
  pos ← list_first_entry ptr_bits head k;
  list_for_each_entry_from fuel k head body pos acc.

(** [for (pos = list_first_entry(head, typeof( *pos), member),
             n = list_next_entry(pos, member);
         &pos->member != (head);
         pos = n, n = list_next_entry(n, member))] *)
Fixpoint list_for_each_entry_safe_from (fuel : nat) (k : Z) (head : addr)
    (body : addr → A → M A) (pos n : addr) (acc : A) : M A :=
  match fuel with
  | O => fault
  | S fuel' =>
      if decide (member_addr ptr_bits pos k = head) then mret acc
      else
        acc' ← body pos acc;
        n' ← list_next_entry ptr_bits n k;
        list_for_each_entry_safe_from fuel' k head body n n' acc'
  end.

Definition list_for_each_entry_safe (fuel : nat) (k : Z) (head : addr)
    (body : addr → A → M A) (acc : A) : M A :=
  pos ← list_first_entry ptr_bits head k;
  n ← list_next_entry ptr_bits pos k;
  list_for_each_entry_safe_from fuel k head body pos n acc.
End Traversal.

(** The loop bodies used below: record the cursor, and record the cursor
    after unlinking it with [list_del]. *)
Definition visit (pos : addr) (acc : list addr) : M (list addr) :=
  mret (acc ++ [pos]).

Definition visit_del (ptr_bits k : Z) (pos : addr) (acc : list addr) : M (list addr) :=
  list_del (member_addr ptr_bits pos k);;
  mret (acc ++ [pos]).

(** ** Reading the memory field by field *)

Definition live (h : heap) (p : addr) : Prop := is_Some (h !! p).
Definition nextf (h : heap) (p : addr) : option addr := next <$> h !! p.
Definition prevf (h : heap) (p : addr) : option addr := prev <$> h !! p.

(** The memory after a successful [p->next = v] or [p->prev = v]. *)
Definition upd_next (p v : addr) (h : heap) : heap := alter (set_next v) p h.
Definition upd_prev (p v : addr) (h : heap) : heap := alter (set_prev v) p h.

Global Instance live_dec h p : Decision (live h p).
Proof. unfold live. apply _. Defined.

(** ** Rings

    [adjacent h a b]: [a->next == b] and [b->prev == a].  [path h l]: every
    element of [l] is adjacent to the one after it.  [ring h head l]: the
    links [head :: l] are pairwise different and following [next] from
    [head] goes through [l] in order and comes back to [head] (and
    following [prev] goes the other way). *)

Definition adjacent (h : heap) (a b : addr) : Prop :=
  nextf h a = Some b ∧ prevf h b = Some a.

Fixpoint path (h : heap) (l : list addr) : Prop :=
  match l with
  | a :: t => match t with
              | b :: _ => adjacent h a b ∧ path h t
              | [] => True
              end
  | [] => True
  end.

Definition ring (h : heap) (head : addr) (l : list addr) : Prop :=
  NoDup (head :: l) ∧ path h (head :: l ++ [head]).

Global Instance adjacent_dec h a b : Decision (adjacent h a b).
Proof. unfold adjacent. apply _. Defined.

Global Instance path_dec h l : Decision (path h l).
Proof.
  induction l as [|a [|b t] IH]; simpl; [left; exact I | left; exact I |].
  simpl in IH. apply _.
Defined.

Global Instance ring_dec h head l : Decision (ring h head l).
Proof. unfold ring. apply _. Defined.

(** The invariant of one link: [x->next->prev == x] and
    [x->prev->next == x]. *)
Definition link_ok (h : heap) (x : addr) : Prop :=
  match h !! x with
  | Some lx => prevf h (next lx) = Some x ∧ nextf h (prev lx) = Some x
  | None => False
  end.

(** [links_wf h S]: [S] is the set of the links that are in rings; each
    of them satisfies the invariant and its two neighbours are in [S]
    again. *)
Definition linked_in (h : heap) (S : gset Z) (x : addr) : Prop :=
  match h !! x with
  | Some lx => next lx ∈ S ∧ prev lx ∈ S
  | None => False
  end.

Definition links_wf (h : heap) (S : gset Z) : Prop :=
  ∀ x, x ∈ S → link_ok h x ∧ linked_in h S x.

Global Instance link_ok_dec h x : Decision (link_ok h x).
Proof. unfold link_ok. destruct (h !! x); apply _. Defined.

Global Instance linked_in_dec h S x : Decision (linked_in h S x).
Proof. unfold linked_in. destruct (h !! x); apply _. Defined.

Global Instance links_wf_dec h S : Decision (links_wf h S).
Proof.
  refine (cast_if (decide (set_Forall (λ x, link_ok h x ∧ linked_in h S x) S)));
    unfold links_wf, set_Forall in *; auto.
Defined.

(** ** Sample memories

    [mem_one]: the sentinel at 16 and one entry at 32.  [mem_three]: the
    sentinel at 16, the entries 32, 48, 64 in this order, and at 80 a
    link that is in no ring, with arbitrary field values.  [mem_empty]:
    an empty list at 16 and the same unlinked link at 80. *)

Definition mem_one : heap :=
  {[ 16 := mk_list_head 32 32; 32 := mk_list_head 16 16 ]}.

Definition mem_three : heap :=
  {[ 16 := mk_list_head 32 64; 32 := mk_list_head 48 16;
     48 := mk_list_head 64 32; 64 := mk_list_head 16 48;
     80 := mk_list_head 7 9 ]}.

Definition mem_empty : heap :=
  {[ 16 := mk_list_head 16 16; 80 := mk_list_head 7 9 ]}.

(** [mem_fresh]: an empty list at 16 and three unlinked links. *)
Definition mem_fresh : heap :=
  {[ 16 := mk_list_head 16 16; 32 := mk_list_head 1 2;
     48 := mk_list_head 3 4; 64 := mk_list_head 5 6 ]}.

Definition links_three : gset Z := {[ 16; 32; 48; 64 ]}.

Global Instance valid_ptr_dec w p : Decision (valid_ptr w p).
Proof. unfold valid_ptr. apply _. Defined.

(** ** Declarations, loop bodies and memory footprint *)

(** [#define LIST_HEAD(name) list_head_t name = LIST_HEAD_INIT(name)]:
    the declaration puts a new object at [name], with the initial value
    of the initializer. *)
Definition LIST_HEAD (name : addr) (h : heap) : heap :=
  <[name := LIST_HEAD_INIT name]> h.

(** A loop body that only updates the caller's local state. *)
Definition pure_body {A} (f : A → addr → A) (pos : addr) (acc : A) : M A :=
  mret (f acc pos).

(** A loop body that records the cursor and unlinks it when [P] holds of
    it. *)
Definition visit_del_if (ptr_bits k : Z) (P : addr → bool)
    (pos : addr) (acc : list addr) : M (list addr) :=
  if P pos then visit_del ptr_bits k pos acc else visit pos acc.

(** [keeps_dom m]: when [m] returns, the live objects are the ones there
    were before. *)
Definition keeps_dom {A} (m : M A) : Prop :=
  ∀ h a h', m h = Some (a, h') → dom h' = dom h.

(** * Proofs *)

(** ** Running the primitives *)

Lemma bind_run {A B} (m : M A) (f : A → M B) h a h' :
  m h = Some (a, h') → (m ≫= f) h = f a h'.
Proof. intros E. unfold mbind, M_bind, bind. by rewrite E. Qed.

Lemma bind_fault {A B} (m : M A) (f : A → M B) h :
  m h = None → (m ≫= f) h = None.
Proof. intros E. unfold mbind, M_bind, bind. by rewrite E. Qed.

Lemma nextf_live h p v : nextf h p = Some v → live h p.
Proof. unfold nextf, live. destruct (h !! p); naive_solver. Qed.

Lemma prevf_live h p v : prevf h p = Some v → live h p.
Proof. unfold prevf, live. destruct (h !! p); naive_solver. Qed.

Lemma live_fields h p : live h p → ∃ n q, nextf h p = Some n ∧ prevf h p = Some q.
Proof. unfold live, nextf, prevf. intros [[n q] ->]. by exists n, q. Qed.

Lemma fields_lookup h p n q :
  nextf h p = Some n → prevf h p = Some q → h !! p = Some (mk_list_head n q).
Proof.
  unfold nextf, prevf. destruct (h !! p) as [[n' q']|]; simpl; congruence.
Qed.

Lemma load_next_run h p v : nextf h p = Some v → load_next p h = Some (v, h).
Proof. unfold nextf, load_next. destruct (h !! p); simpl; congruence. Qed.

Lemma load_prev_run h p v : prevf h p = Some v → load_prev p h = Some (v, h).
Proof. unfold prevf, load_prev. destruct (h !! p); simpl; congruence. Qed.

Lemma load_next_fault h p : h !! p = None → load_next p h = None.
Proof. unfold load_next. by intros ->. Qed.

Lemma load_prev_fault h p : h !! p = None → load_prev p h = None.
Proof. unfold load_prev. by intros ->. Qed.

Lemma store_next_run h p v : live h p → store_next p v h = Some (tt, upd_next p v h).
Proof.
  unfold live, store_next, upd_next. intros [l E]. rewrite E.
  do 2 f_equal. apply map_eq. intros x.
  rewrite lookup_insert, lookup_alter. case_decide; subst; by rewrite ?E.
Qed.

Lemma store_prev_run h p v : live h p → store_prev p v h = Some (tt, upd_prev p v h).
Proof.
  unfold live, store_prev, upd_prev. intros [l E]. rewrite E.
  do 2 f_equal. apply map_eq. intros x.
  rewrite lookup_insert, lookup_alter. case_decide; subst; by rewrite ?E.
Qed.

Lemma live_upd_next h p v x : live (upd_next p v h) x ↔ live h x.
Proof.
  unfold live, upd_next. rewrite lookup_alter. case_decide; subst; [|done].
  by rewrite fmap_is_Some.
Qed.

Lemma live_upd_prev h p v x : live (upd_prev p v h) x ↔ live h x.
Proof.
  unfold live, upd_prev. rewrite lookup_alter. case_decide; subst; [|done].
  by rewrite fmap_is_Some.
Qed.

Lemma nextf_upd_next h p v x :
  live h p → nextf (upd_next p v h) x = if decide (x = p) then Some v else nextf h x.
Proof.
  unfold live, nextf, upd_next. intros [l E]. rewrite lookup_alter.
  repeat case_decide; subst; try congruence. by rewrite E.
Qed.

Lemma prevf_upd_next h p v x : prevf (upd_next p v h) x = prevf h x.
Proof.
  unfold prevf, upd_next. rewrite lookup_alter.
  case_decide; subst; [|done]. by destruct (h !! x).
Qed.

Lemma prevf_upd_prev h p v x :
  live h p → prevf (upd_prev p v h) x = if decide (x = p) then Some v else prevf h x.
Proof.
  unfold live, prevf, upd_prev. intros [l E]. rewrite lookup_alter.
  repeat case_decide; subst; try congruence. by rewrite E.
Qed.

Lemma nextf_upd_prev h p v x : nextf (upd_prev p v h) x = nextf h x.
Proof.
  unfold nextf, upd_prev. rewrite lookup_alter.
  case_decide; subst; [|done]. by destruct (h !! x).
Qed.

Lemma live_upd_next_2 h p v x : live h x → live (upd_next p v h) x.
Proof. apply live_upd_next. Qed.

Lemma live_upd_prev_2 h p v x : live h x → live (upd_prev p v h) x.
Proof. apply live_upd_prev. Qed.

Ltac solve_live :=
  repeat first [apply live_upd_next_2 | apply live_upd_prev_2];
  eauto using nextf_live, prevf_live.

(** Rewrite the fields of an updated memory to nested conditionals. *)
Ltac fields :=
  repeat first
    [ rewrite prevf_upd_next
    | rewrite nextf_upd_prev
    | rewrite nextf_upd_next by solve_live
    | rewrite prevf_upd_prev by solve_live ].

(** Decide a closed proposition by evaluation. *)
Ltac by_compute := apply (bool_decide_unpack _); vm_compute; exact I.

(** Resolve the conditionals whose test is known. *)
Ltac decided :=
  repeat first
    [ rewrite decide_True by (done || congruence)
    | rewrite decide_False by (done || congruence) ].

(** One statement of a straight-line function. *)
Ltac run_step :=
  first
    [ erewrite bind_run by (apply store_next_run; solve_live)
    | erewrite bind_run by (apply store_prev_run; solve_live)
    | erewrite bind_run by (apply load_next_run; fields; eassumption)
    | erewrite bind_run by (apply load_prev_run; fields; eassumption)
    | apply store_next_run; solve_live
    | apply store_prev_run; solve_live ].

(** ** The memory after each operation *)

Lemma INIT_LIST_HEAD_run h x :
  live h x →
  INIT_LIST_HEAD x h = Some (tt, upd_prev x x (upd_next x x h)).
Proof. intros. unfold INIT_LIST_HEAD. by repeat run_step. Qed.

Lemma __list_add_run h new p n :
  live h new → live h p → live h n →
  __list_add new p n h
  = Some (tt, upd_next p new (upd_prev new p (upd_next new n (upd_prev n new h)))).
Proof. intros. unfold __list_add. by repeat run_step. Qed.

Lemma list_add_run h new head n :
  nextf h head = Some n → live h new → live h n →
  list_add new head h
  = Some (tt, upd_next head new (upd_prev new head (upd_next new n (upd_prev n new h)))).
Proof.
  intros. unfold list_add. run_step. apply __list_add_run; solve_live.
Qed.

Lemma list_add_tail_run h new head p :
  prevf h head = Some p → live h new → live h p →
  list_add_tail new head h
  = Some (tt, upd_next p new (upd_prev new p (upd_next new head (upd_prev head new h)))).
Proof.
  intros. unfold list_add_tail. run_step. apply __list_add_run; solve_live.
Qed.

Lemma __list_del_run h p n :
  live h p → live h n →
  __list_del p n h = Some (tt, upd_next p n (upd_prev n p h)).
Proof. intros. unfold __list_del. by repeat run_step. Qed.

Lemma list_del_run h e p n :
  prevf h e = Some p → nextf h e = Some n → live h p → live h n →
  list_del e h
  = Some (tt, upd_prev e LIST_POISON2 (upd_next e LIST_POISON1
               (upd_next p n (upd_prev n p h)))).
Proof.
  intros. unfold list_del. do 2 run_step.
  erewrite bind_run by (apply __list_del_run; solve_live).
  by repeat run_step.
Qed.

Lemma list_replace_run h old new n p0 :
  nextf h old = Some n → prevf h old = Some p0 →
  live h new → live h n → live h p0 →
  list_replace old new h
  = Some (tt, let p := if decide (old = n) then new else p0 in
              upd_next p new (upd_prev new p (upd_prev n new (upd_next new n h)))).
Proof.
  intros Hn Hp Lnew Ln Lp. unfold list_replace. run_step. run_step.
  erewrite bind_run by (apply load_next_run; fields; by rewrite decide_True).
  run_step.
  erewrite (bind_run _ _ _ (if decide (old = n) then new else p0))
    by (apply load_prev_run; fields; rewrite Hp; by case_decide).
  assert (live h (if decide (old = n) then new else p0)) by (by case_decide).
  run_step.
  erewrite bind_run by (apply load_prev_run; fields; by rewrite decide_True).
  simpl. by run_step.
Qed.

Lemma list_replace_init_run h old new n p0 :
  nextf h old = Some n → prevf h old = Some p0 →
  live h new → live h n → live h p0 →
  list_replace_init old new h
  = Some (tt, let p := if decide (old = n) then new else p0 in
              upd_prev old old (upd_next old old
                (upd_next p new (upd_prev new p (upd_prev n new (upd_next new n h)))))).
Proof.
  intros Hn Hp Lnew Ln Lp. unfold list_replace_init.
  erewrite bind_run by (by apply list_replace_run).
  simpl. apply INIT_LIST_HEAD_run. solve_live.
Qed.

(** ** Paths and rings *)

Lemma path_cons h a b t : path h (a :: b :: t) ↔ adjacent h a b ∧ path h (b :: t).
Proof. reflexivity. Qed.

Lemma path_app h l1 x l2 :
  path h (l1 ++ x :: l2) ↔ path h (l1 ++ [x]) ∧ path h (x :: l2).
Proof.
  induction l1 as [|a [|b t] IH].
  - simpl. tauto.
  - change (path h (a :: x :: l2) ↔ path h [a; x] ∧ path h (x :: l2)).
    rewrite !path_cons. simpl. tauto.
  - change (path h (a :: b :: (t ++ x :: l2))
            ↔ path h (a :: b :: (t ++ [x])) ∧ path h (x :: l2)).
    rewrite !path_cons. simpl in IH. tauto.
Qed.

Lemma path_tail h a l : path h (a :: l) → path h l.
Proof. destruct l; [done|]. rewrite path_cons. tauto. Qed.

Lemma path_app_l h l1 l2 : path h (l1 ++ l2) → path h l1.
Proof.
  destruct l2 as [|x l2]; [by rewrite app_nil_r|].
  rewrite path_app. intros [H _]. revert H.
  induction l1 as [|a [|b t] IH]; [done | done |].
  change (path h (a :: b :: (t ++ [x])) → path h (a :: b :: t)).
  rewrite !path_cons. simpl in IH. tauto.
Qed.

Lemma path_app_r h l1 l2 : path h (l1 ++ l2) → path h l2.
Proof. induction l1 as [|a l1 IH]; [done|]. intros H. apply IH. by eapply path_tail. Qed.

(** Only the [next] field of the links before the last one and the
    [prev] field of the links after the first one matter to a path. *)
Lemma path_frame h h' l :
  (∀ x, x ∈ removelast l → nextf h' x = nextf h x) →
  (∀ x, x ∈ tail l → prevf h' x = prevf h x) →
  path h l → path h' l.
Proof.
  induction l as [|a [|b t] IH]; [done | done |].
  intros Hn Hp. rewrite !path_cons. intros [[H1 H2] H3]. split.
  - split.
    + rewrite Hn; [done|]. simpl. left.
    + rewrite Hp; [done|]. simpl. left.
  - apply IH; [| |done].
    + intros x Hx. apply Hn. change (x ∈ a :: removelast (b :: t)). by right.
    + intros x Hx. apply Hp. simpl. simpl in Hx. by right.
Qed.

Lemma last_cons_default (l : list Z) (b a : Z) : List.last (b :: l) a = List.last l b.
Proof.
  revert a b. induction l as [|c l IH]; intros a b; [done|].
  change (List.last (c :: l) a = List.last (c :: l) b).
  by rewrite (IH a c), (IH b c).
Qed.

Lemma snoc_view (a : Z) (l : list Z) : ∃ l0, a :: l = l0 ++ [List.last l a].
Proof.
  revert a. induction l as [|b l IH]; intros a.
  - by exists [].
  - destruct (IH b) as [l0 E]. exists (a :: l0).
    rewrite last_cons_default, E. done.
Qed.

Lemma cons_view (l : list Z) (a : Z) : ∃ l0, l ++ [a] = List.hd a l :: l0.
Proof. destruct l as [|b l]; [by exists [] | by exists (l ++ [a])]. Qed.

Lemma hd_elem (l : list Z) (a : Z) : List.hd a l ∈ l ++ [a].
Proof. destruct l; simpl; set_solver. Qed.

Lemma last_elem (l : list Z) (a : Z) : List.last l a ∈ a :: l.
Proof. destruct (snoc_view a l) as [l0 ->]. set_solver. Qed.

(** Replacing the segment [olds] of a ring by the segment [mid]: the
    links outside keep their fields, except the [next] of the link before
    the segment and the [prev] of the link after it, and the new
    memory has a path from the one to the other through [mid]. *)
Lemma ring_splice h h' head l1 olds mid l2 :
  ring h head (l1 ++ olds ++ l2) →
  NoDup (head :: l1 ++ mid ++ l2) →
  (∀ x, x ∈ head :: l1 ++ l2 → x ≠ List.last l1 head → nextf h' x = nextf h x) →
  (∀ x, x ∈ head :: l1 ++ l2 → x ≠ List.hd head l2 → prevf h' x = prevf h x) →
  path h' (List.last l1 head :: mid ++ [List.hd head l2]) →
  ring h' head (l1 ++ mid ++ l2).
Proof.
  intros [_ P] ND Fn Fp Pm. split; [done|].
  pose proof (hd_elem l2 head) as Hn.
  pose proof (last_elem l1 head) as Hp.
  destruct (snoc_view head l1) as [P0 EP].
  destruct (cons_view l2 head) as [Q0 EQ].
  remember (List.last l1 head) as p eqn:Ep. clear Ep.
  remember (List.hd head l2) as n eqn:En. clear En.
  assert (E : ∀ m, head :: (l1 ++ m ++ l2) ++ [head] = (P0 ++ [p]) ++ m ++ n :: Q0).
  { intros m. rewrite <- EP, <- EQ. simpl. by rewrite <- !app_assoc. }
  rewrite E in P. rewrite E. clear E.
  apply NoDup_cons in ND as [Hh ND].
  apply NoDup_app in ND as (ND1 & D1 & ND2).
  apply NoDup_app in ND2 as (_ & _ & ND2).
  assert (NDP : NoDup (P0 ++ [p])).
  { rewrite <- EP. apply NoDup_cons. split; [set_solver | done]. }
  assert (NDQ : NoDup (n :: Q0)).
  { rewrite <- EQ. apply NoDup_app. split_and!; [done | set_solver | apply NoDup_singleton]. }
  assert (P1 : path h' (P0 ++ [p])).
  { apply path_frame with h; [| |by eapply path_app_l].
    - rewrite removelast_last. intros x Hx. apply Fn.
      + assert (x ∈ head :: l1) by (rewrite EP; set_solver). set_solver.
      + apply NoDup_app in NDP as (_ & D & _). set_solver.
    - rewrite <- EP. simpl. intros x Hx. apply Fp; [set_solver|].
      intros ->. set_solver. }
  assert (P2 : path h' (n :: Q0)).
  { apply path_frame with h; [| |by do 2 eapply path_app_r].
    - rewrite <- EQ, removelast_last. intros x Hx. apply Fn; [set_solver|].
      intros ->. set_solver.
    - simpl. intros x Hx. apply Fp.
      + assert (x ∈ l2 ++ [head]) by (rewrite EQ; set_solver). set_solver.
      + apply NoDup_cons in NDQ as [? _]. set_solver. }
  rewrite <- app_assoc. apply path_app. split; [done|].
  change (path h' ((p :: mid) ++ n :: Q0)). apply path_app. split; [|done].
  exact Pm.
Qed.

Lemma ring_head h head l :
  ring h head l →
  adjacent h head (List.hd head l) ∧ adjacent h (List.last l head) head.
Proof.
  intros [_ P]. split.
  - destruct (cons_view l head) as [Q0 EQ]. rewrite EQ in P.
    by apply path_cons in P as [? _].
  - destruct (snoc_view head l) as [P0 EP].
    change (path h ((head :: l) ++ [head])) in P. rewrite EP, <- app_assoc in P.
    apply path_app_r in P. by apply path_cons in P as [? _].
Qed.

Lemma ring_entry h head l1 e l2 :
  ring h head (l1 ++ e :: l2) →
  adjacent h (List.last l1 head) e ∧ adjacent h e (List.hd head l2)
  ∧ List.last l1 head ≠ e ∧ List.hd head l2 ≠ e ∧ e ≠ head.
Proof.
  intros [ND P].
  pose proof (hd_elem l2 head) as Hn.
  pose proof (last_elem l1 head) as Hp.
  destruct (snoc_view head l1) as [P0 EP].
  destruct (cons_view l2 head) as [Q0 EQ].
  remember (List.last l1 head) as p eqn:Ep. clear Ep.
  remember (List.hd head l2) as n eqn:En. clear En.
  assert (E : head :: (l1 ++ e :: l2) ++ [head] = P0 ++ p :: e :: n :: Q0).
  { rewrite <- app_assoc. change (?a :: ?l ++ ?r) with ((a :: l) ++ r).
    rewrite EP, <- app_assoc. simpl. by rewrite EQ. }
  rewrite E in P. apply path_app_r in P.
  apply path_cons in P as [A1 P]. apply path_cons in P as [A2 _].
  apply NoDup_cons in ND as [Hh ND]. apply NoDup_app in ND as (_ & D & ND).
  apply NoDup_cons in ND as [He _].
  split_and!; [done | done | | | ]; set_solver.
Qed.

(** Every link of a ring satisfies the invariant, and its neighbours are
    links of the ring. *)
Lemma ring_link h head l x :
  ring h head l → x ∈ head :: l →
  ∃ n p, adjacent h x n ∧ adjacent h p x ∧ n ∈ head :: l ∧ p ∈ head :: l.
Proof.
  intros R Hx. apply elem_of_cons in Hx as [->|Hx].
  - destruct (ring_head _ _ _ R) as [A1 A2].
    exists (List.hd head l), (List.last l head). split_and!; [done | done | |].
    + pose proof (hd_elem l head). set_solver.
    + apply last_elem.
  - apply list_elem_of_split in Hx as (l1 & l2 & ->).
    destruct (ring_entry _ _ _ _ _ R) as (A1 & A2 & _).
    exists (List.hd head l2), (List.last l1 head). split_and!; [done | done | |].
    + pose proof (hd_elem l2 head). set_solver.
    + pose proof (last_elem l1 head). set_solver.
Qed.

Lemma ring_live h head l x : ring h head l → x ∈ head :: l → live h x.
Proof.
  intros R Hx. destruct (ring_link _ _ _ _ R Hx) as (n & p & [A _] & _).
  by eapply nextf_live.
Qed.

Lemma link_ok_fields h x n p :
  nextf h x = Some n → prevf h x = Some p →
  link_ok h x ↔ prevf h n = Some x ∧ nextf h p = Some x.
Proof.
  intros Hn Hp. unfold link_ok. by rewrite (fields_lookup _ _ _ _ Hn Hp).
Qed.

Lemma linked_in_fields h (S : gset Z) x n p :
  nextf h x = Some n → prevf h x = Some p →
  linked_in h S x ↔ n ∈ S ∧ p ∈ S.
Proof.
  intros Hn Hp. unfold linked_in. by rewrite (fields_lookup _ _ _ _ Hn Hp).
Qed.

Lemma links_wf_at h (S : gset Z) x :
  links_wf h S → x ∈ S →
  ∃ n p, nextf h x = Some n ∧ prevf h x = Some p
         ∧ prevf h n = Some x ∧ nextf h p = Some x ∧ n ∈ S ∧ p ∈ S.
Proof.
  intros W Hx. destruct (W x Hx) as [Hok Hin].
  unfold link_ok in Hok. unfold linked_in in Hin.
  destruct (h !! x) as [[n p]|] eqn:E; [|done]. simpl in *.
  exists n, p. unfold nextf at 1, prevf at 1. rewrite E. naive_solver.
Qed.

Lemma links_wf_intro h (S : gset Z) :
  (∀ x, x ∈ S →
     ∃ n p, nextf h x = Some n ∧ prevf h x = Some p
            ∧ prevf h n = Some x ∧ nextf h p = Some x ∧ n ∈ S ∧ p ∈ S) →
  links_wf h S.
Proof.
  intros H x Hx. destruct (H x Hx) as (n & p & Hn & Hp & ? & ? & ? & ?).
  rewrite (link_ok_fields _ _ _ _ Hn Hp), (linked_in_fields _ _ _ _ _ Hn Hp).
  done.
Qed.

Lemma ring_links_wf h head l : ring h head l → links_wf h (list_to_set (head :: l)).
Proof.
  intros R. apply links_wf_intro. intros x Hx. apply elem_of_list_to_set in Hx.
  destruct (ring_link _ _ _ _ R Hx) as (n & p & [? ?] & [? ?] & ? & ?).
  exists n, p. rewrite !elem_of_list_to_set. done.
Qed.

(** A ring can be read from any of its links. *)
Lemma ring_rotate h head l1 x l2 :
  ring h head (l1 ++ x :: l2) → ring h x (l2 ++ head :: l1).
Proof.
  intros [ND P]. split.
  - apply NoDup_cons in ND as [Hh ND]. apply NoDup_app in ND as (ND1 & D & ND2).
    apply NoDup_cons in ND2 as [Hx ND2].
    apply NoDup_cons. split; [set_solver|].
    apply NoDup_app. split_and!; [done | set_solver |].
    apply NoDup_cons. split; [set_solver | done].
  - replace (head :: (l1 ++ x :: l2) ++ [head])
      with ((head :: l1) ++ x :: l2 ++ [head]) in P
      by (simpl; by rewrite <- app_assoc).
    apply path_app in P as [P1 P2].
    replace (x :: (l2 ++ head :: l1) ++ [x])
      with ((x :: l2) ++ head :: l1 ++ [x])
      by (simpl; by rewrite <- app_assoc).
    apply path_app. split; [exact P2 | exact P1].
Qed.

(** ** Insertion into a ring *)

Lemma list_add_ring h head l new :
  ring h head l → live h new → new ∉ head :: l →
  ∃ h', list_add new head h = Some (tt, h') ∧ ring h' head (new :: l).
Proof.
  intros R Lnew Hnew.
  destruct (ring_head _ _ _ R) as [[Hn Hnp] _].
  pose proof (hd_elem l head) as Hel.
  remember (List.hd head l) as n eqn:En.
  assert (Ln : live h n) by solve_live.
  assert (Lh : live h head) by solve_live.
  assert (new ≠ head) by set_solver. assert (new ≠ n) by set_solver.
  eexists. split; [by apply list_add_run|].
  apply (ring_splice h _ head [] [] [new] l R).
  - simpl. destruct R as [ND _]. apply NoDup_cons in ND as [? ?].
    apply NoDup_cons. split; [set_solver|]. apply NoDup_cons. set_solver.
  - simpl. intros x Hx Hxp. assert (x ≠ new) by set_solver. fields. by decided.
  - rewrite <- En. intros x Hx Hxp. assert (x ≠ new) by set_solver. fields. by decided.
  - rewrite <- En. simpl. unfold adjacent. split_and!; try done; fields; by decided.
Qed.

Lemma list_add_tail_ring h head l new :
  ring h head l → live h new → new ∉ head :: l →
  ∃ h', list_add_tail new head h = Some (tt, h') ∧ ring h' head (l ++ [new]).
Proof.
  intros R Lnew Hnew.
  destruct (ring_head _ _ _ R) as [_ [Hpn Hp]].
  pose proof (last_elem l head) as Hel.
  remember (List.last l head) as p eqn:Ep.
  assert (Lp : live h p) by solve_live.
  assert (Lh : live h head) by solve_live.
  assert (new ≠ head) by set_solver. assert (new ≠ p) by set_solver.
  eexists. split; [by apply list_add_tail_run|].
  assert (R0 : ring h head (l ++ [] ++ [])) by (by rewrite !app_nil_r).
  apply (ring_splice h _ head l [] [new] [] R0).
  - simpl. destruct R as [ND _]. apply NoDup_cons in ND as [? ?].
    apply NoDup_cons. split; [set_solver|].
    apply NoDup_app. split_and!; [done | set_solver | apply NoDup_singleton].
  - rewrite <- Ep. intros x Hx Hxp. assert (x ≠ new) by set_solver. fields. by decided.
  - simpl. intros x Hx Hxp. assert (x ≠ new) by set_solver. fields. by decided.
  - rewrite <- Ep. simpl. unfold adjacent. split_and!; try done; fields; by decided.
Qed.

(** ** Forward traversal of a ring *)

Lemma list_for_each_from_path h head l acc fuel :
  path h (l ++ [head]) → head ∉ l → (length l < fuel)%nat →
  list_for_each_from fuel head visit (List.hd head l) acc h = Some (acc ++ l, h).
Proof.
  revert acc fuel. induction l as [|x l IH]; intros acc fuel P Hh Hf.
  - destruct fuel as [|fuel]; [simpl in Hf; lia|]. simpl.
    rewrite decide_True by done. by rewrite app_nil_r.
  - destruct fuel as [|fuel]; [simpl in Hf; lia|]. simpl.
    rewrite decide_False by set_solver.
    erewrite bind_run by reflexivity.
    destruct (cons_view l head) as [Q0 EQ].
    change (path h (x :: (l ++ [head]))) in P. rewrite EQ in P.
    apply path_cons in P as [[Hn _] P]. rewrite <- EQ in P.
    erewrite bind_run by (by apply load_next_run).
    rewrite IH; [| done | set_solver | simpl in Hf; lia].
    by rewrite <- app_assoc.
Qed.

Lemma list_for_each_ring h head l fuel :
  ring h head l → (length l < fuel)%nat →
  list_for_each fuel head visit [] h = Some (l, h).
Proof.
  intros R Hf. destruct (ring_head _ _ _ R) as [[Hn _] _].
  destruct R as [ND P]. apply NoDup_cons in ND as [Hh _].
  unfold list_for_each. erewrite bind_run by (by apply load_next_run).
  apply (list_for_each_from_path h head l []); [by eapply path_tail | done | done].
Qed.

(** ** Removal from a ring *)

Lemma list_del_ring h head l1 e l2 :
  ring h head (l1 ++ e :: l2) →
  let p := List.last l1 head in
  let n := List.hd head l2 in
  let h' := upd_prev e LIST_POISON2 (upd_next e LIST_POISON1
              (upd_next p n (upd_prev n p h))) in
  list_del e h = Some (tt, h') ∧ ring h' head (l1 ++ l2).
Proof.
  intros R. destruct (ring_entry _ _ _ _ _ R) as ([Hpn Hep] & [Hen Hnp] & Npe & Nne & Neh).
  pose proof (proj1 R) as ND.
  remember (List.last l1 head) as p eqn:Ep.
  remember (List.hd head l2) as n eqn:En.
  simpl.
  assert (Lp : live h p) by solve_live.
  assert (Ln : live h n) by solve_live.
  assert (Le : live h e) by solve_live.
  split; [by apply list_del_run|].
  apply (ring_splice h _ head l1 [e] [] l2 R).
  - simpl. apply NoDup_cons in ND as [Hh ND]. apply NoDup_cons. split; [set_solver|].
    apply NoDup_app in ND as (? & ? & ND). apply NoDup_cons in ND as [? ?].
    apply NoDup_app. set_solver.
  - rewrite <- Ep. intros x Hx Hxp.
    assert (x ≠ e).
    { intros ->. apply NoDup_cons in ND as [? ND].
      apply NoDup_app in ND as (? & ? & ND). apply NoDup_cons in ND as [? ?]. set_solver. }
    fields. by rewrite !decide_False.
  - rewrite <- En. intros x Hx Hxp.
    assert (x ≠ e).
    { intros ->. apply NoDup_cons in ND as [? ND].
      apply NoDup_app in ND as (? & ? & ND). apply NoDup_cons in ND as [? ?]. set_solver. }
    fields. by rewrite !decide_False.
  - rewrite <- Ep, <- En. simpl. split; [split; fields | done].
    + rewrite decide_False by done. by rewrite decide_True.
    + rewrite decide_False by done. by rewrite decide_True.
Qed.

Lemma lookup_upd_next_ne h p v x : x ≠ p → upd_next p v h !! x = h !! x.
Proof. intros. unfold upd_next. by rewrite lookup_alter_ne. Qed.

Lemma lookup_upd_prev_ne h p v x : x ≠ p → upd_prev p v h !! x = h !! x.
Proof. intros. unfold upd_prev. by rewrite lookup_alter_ne. Qed.

Lemma ring_entry_fields h head l e pv nx :
  ring h head l → e ∈ l → prevf h e = Some pv → nextf h e = Some nx →
  ∃ l1 l2, l = l1 ++ e :: l2 ∧ pv = List.last l1 head ∧ nx = List.hd head l2
           ∧ pv ≠ e ∧ nx ≠ e ∧ live h pv ∧ live h nx.
Proof.
  intros R He Hp Hn. apply list_elem_of_split in He as (l1 & l2 & ->).
  destruct (ring_entry _ _ _ _ _ R) as ([Hpn Hep] & [Hen Hnp] & Npe & Nne & _).
  exists l1, l2. rewrite Hp in Hep. rewrite Hn in Hen.
  injection Hep as ->. injection Hen as ->.
  split_and!; try done; solve_live.
Qed.

(** C4.  For an entry [n] of a ring with sentinel [head], with
    [pv = n->prev] and [nx = n->next] read before the call: [list_del n]
    succeeds, afterwards [pv->next == nx] and [nx->prev == pv], and the
    forward traversal from [head], which visited the [L] entries [l]
    before, visits the [L - 1] entries of [l] without [n]. *)
Theorem list_del_joins_neighbours h head l n pv nx fuel :
  ring h head l → n ∈ l →
  prevf h n = Some pv → nextf h n = Some nx →
  (length l < fuel)%nat →
  list_for_each fuel head visit [] h = Some (l, h)
  ∧ ∃ h' l1 l2,
      l = l1 ++ n :: l2
      ∧ list_del n h = Some (tt, h')
      ∧ nextf h' pv = Some nx ∧ prevf h' nx = Some pv
      ∧ list_for_each fuel head visit [] h' = Some (l1 ++ l2, h')
      ∧ length (l1 ++ l2) = (length l - 1)%nat.
Proof.
  intros R Hn Hpv Hnx Hf. split; [by apply list_for_each_ring|].
  destruct (ring_entry_fields _ _ _ _ _ _ R Hn Hpv Hnx)
    as (l1 & l2 & -> & Ep & En & Npe & Nne & Lp & Lx).
  destruct (list_del_ring _ _ _ _ _ R) as [Hrun R'].
  rewrite <- Ep, <- En in Hrun, R'.
  assert (Hlen : length (l1 ++ l2) = (length (l1 ++ n :: l2) - 1)%nat).
  { rewrite !length_app. simpl. lia. }
  eexists _, l1, l2. split_and!; [done | exact Hrun | | | | done].
  - fields. by decided.
  - fields. by decided.
  - apply list_for_each_ring; [done | lia].
Qed.

Lemma list_del_joins_neighbours_witness :
  list_for_each 4 16 visit [] mem_three = Some ([32; 48; 64], mem_three)
  ∧ ∃ h' l1 l2,
      [32; 48; 64] = l1 ++ 48 :: l2
      ∧ list_del 48 mem_three = Some (tt, h')
      ∧ nextf h' 32 = Some 64 ∧ prevf h' 64 = Some 32
      ∧ list_for_each 4 16 visit [] h' = Some (l1 ++ l2, h')
      ∧ length (l1 ++ l2) = (length [32; 48; 64] - 1)%nat.
Proof.
  apply (list_del_joins_neighbours mem_three 16 [32; 48; 64] 48 32 64 4).
  - by_compute.
  - by_compute.
  - vm_compute. reflexivity.
  - vm_compute. reflexivity.
  - simpl. lia.
Defined.

(** [list_del] of an entry succeeds; the memory it leaves. *)
Lemma list_del_entry h head l n pv nx :
  ring h head l → n ∈ l →
  prevf h n = Some pv → nextf h n = Some nx →
  pv ≠ n ∧ nx ≠ n ∧ live h pv ∧ live h nx ∧ live h n
  ∧ list_del n h
    = Some (tt, upd_prev n LIST_POISON2 (upd_next n LIST_POISON1
                  (upd_next pv nx (upd_prev nx pv h)))).
Proof.
  intros R Hn Hpv Hnx.
  destruct (ring_entry_fields _ _ _ _ _ _ R Hn Hpv Hnx)
    as (l1 & l2 & -> & Ep & En & Npe & Nne & Lp & Lx).
  assert (Le : live h n) by solve_live.
  split_and!; try done. by apply list_del_run.
Qed.

(** C9, as amended.  [list_del n] writes four fields: [n->next] and
    [n->prev] (poisoned), the [next] field of the former predecessor [pv]
    and the [prev] field of the former successor [nx].  Every other field
    of every link is unchanged, so when [pv] and [nx] are different links
    [pv->prev] and [nx->next] are unchanged; when they are the same link
    ([n] was the only other link of the ring) both fields of that link
    are rewritten and it points to itself. *)
Theorem list_del_frame h head l n pv nx :
  ring h head l → n ∈ l →
  prevf h n = Some pv → nextf h n = Some nx →
  ∃ h', list_del n h = Some (tt, h')
    ∧ nextf h' n = Some LIST_POISON1 ∧ prevf h' n = Some LIST_POISON2
    ∧ nextf h' pv = Some nx ∧ prevf h' nx = Some pv
    ∧ (∀ x, x ≠ n → x ≠ pv → nextf h' x = nextf h x)
    ∧ (∀ x, x ≠ n → x ≠ nx → prevf h' x = prevf h x)
    ∧ (∀ x, x ≠ n → x ≠ pv → x ≠ nx → h' !! x = h !! x)
    ∧ (pv ≠ nx → prevf h' pv = prevf h pv ∧ nextf h' nx = nextf h nx)
    ∧ (pv = nx → nextf h' pv = Some pv ∧ prevf h' pv = Some pv).
Proof.
  intros R Hn Hpv Hnx.
  destruct (list_del_entry _ _ _ _ _ _ R Hn Hpv Hnx) as (Npe & Nne & Lp & Lx & Le & Hrun).
  eexists. split; [exact Hrun|].
  split_and!; try (intros; split_and?; fields; decided; congruence).
  intros x ? ? ?.
  by rewrite !lookup_upd_prev_ne, !lookup_upd_next_ne, !lookup_upd_prev_ne.
Qed.

Lemma list_del_frame_witness :
  ∃ h', list_del 48 mem_three = Some (tt, h')
    ∧ nextf h' 48 = Some LIST_POISON1 ∧ prevf h' 48 = Some LIST_POISON2
    ∧ nextf h' 32 = Some 64 ∧ prevf h' 64 = Some 32
    ∧ (∀ x, x ≠ 48 → x ≠ 32 → nextf h' x = nextf mem_three x)
    ∧ (∀ x, x ≠ 48 → x ≠ 64 → prevf h' x = prevf mem_three x)
    ∧ (∀ x, x ≠ 48 → x ≠ 32 → x ≠ 64 → h' !! x = mem_three !! x)
    ∧ (32 ≠ 64 → prevf h' 32 = prevf mem_three 32 ∧ nextf h' 64 = nextf mem_three 64)
    ∧ (32 = 64 → nextf h' 32 = Some 32 ∧ prevf h' 32 = Some 32).
Proof.
  apply (list_del_frame mem_three 16 [32; 48; 64] 48 32 64).
  - by_compute.
  - by_compute.
  - vm_compute. reflexivity.
  - vm_compute. reflexivity.
Defined.

(** C9 as stated fails when the removed node is the only entry: the
    sentinel is then predecessor and successor at once, and its [prev]
    field (like its [next] field) is rewritten. *)
Lemma list_del_frame_single_entry :
  ¬ (∀ h head l n pv nx h',
       ring h head l → n ∈ l →
       prevf h n = Some pv → nextf h n = Some nx →
       list_del n h = Some (tt, h') →
       nextf h' n = Some LIST_POISON1 ∧ prevf h' n = Some LIST_POISON2
       ∧ prevf h' pv = prevf h pv ∧ nextf h' nx = nextf h nx
       ∧ ∀ x, x ≠ n → x ≠ pv → x ≠ nx → h' !! x = h !! x).
Proof.
  intros H.
  assert (R : ring mem_one 16 [32]) by by_compute.
  assert (E : list_del 32 mem_one
              = Some (tt, {[ 16 := mk_list_head 16 16; 32 := mk_list_head 0 0 ]}))
    by (vm_compute; reflexivity).
  destruct (H mem_one 16 [32] 32 16 16 _ R ltac:(set_solver) eq_refl eq_refl E)
    as (_ & _ & Hp & _).
  vm_compute in Hp. discriminate Hp.
Qed.

(** ** Poisoning *)

(** C2 as stated fails: in the compiled configuration the two fields of
    the removed node are NULL. *)
Lemma list_del_poison_is_null :
  ¬ (∀ h head l n h',
       ring h head l → n ∈ l → list_del n h = Some (tt, h') →
       ∃ v w, nextf h' n = Some v ∧ prevf h' n = Some w ∧ v ≠ NULL ∧ w ≠ NULL).
Proof.
  intros H.
  assert (R : ring mem_one 16 [32]) by by_compute.
  assert (E : list_del 32 mem_one
              = Some (tt, {[ 16 := mk_list_head 16 16; 32 := mk_list_head 0 0 ]}))
    by (vm_compute; reflexivity).
  destruct (H mem_one 16 [32] 32 _ R ltac:(set_solver) E) as (v & w & Hv & _ & Nv & _).
  vm_compute in Hv. injection Hv as <-. by apply Nv.
Qed.

(** C2, as amended.  [list_del] of an entry of a ring sets its [next]
    field to [LIST_POISON1] and its [prev] field to [LIST_POISON2]; in
    the compiled configuration both are NULL.  NULL is the address of no
    link, so a second [list_del] of the removed node faults. *)
Theorem list_del_poisons h head l n :
  ring h head l → n ∈ l → h !! NULL = None →
  ∃ h', list_del n h = Some (tt, h')
    ∧ nextf h' n = Some LIST_POISON1 ∧ prevf h' n = Some LIST_POISON2
    ∧ LIST_POISON1 = NULL ∧ LIST_POISON2 = NULL
    ∧ list_del n h' = None.
Proof.
  intros R Hn Hnull.
  destruct (ring_link _ _ _ n R ltac:(set_solver)) as (nx & pv & [Hnx _] & [_ Hpv] & _).
  destruct (list_del_entry _ _ _ _ _ _ R Hn Hpv Hnx) as (Npe & Nne & Lp & Lx & Le & Hrun).
  eexists. split; [exact Hrun|].
  assert (Nnull : ∀ x, live h x → x ≠ NULL).
  { intros x [? Hx] ->. congruence. }
  split_and!; [fields; by decided | fields; by decided | done | done |].
  unfold list_del.
  erewrite bind_run by (apply load_prev_run; fields; by decided).
  erewrite bind_run by (apply load_next_run; fields; by decided).
  apply bind_fault. unfold __list_del. apply bind_fault.
  unfold store_prev. change LIST_POISON1 with NULL.
  rewrite !lookup_upd_prev_ne, !lookup_upd_next_ne, !lookup_upd_prev_ne, Hnull;
    [done | | | |]; apply not_eq_sym; by apply Nnull.
Qed.

Lemma list_del_poisons_witness :
  ∃ h', list_del 48 mem_three = Some (tt, h')
    ∧ nextf h' 48 = Some LIST_POISON1 ∧ prevf h' 48 = Some LIST_POISON2
    ∧ LIST_POISON1 = NULL ∧ LIST_POISON2 = NULL
    ∧ list_del 48 h' = None.
Proof.
  apply (list_del_poisons mem_three 16 [32; 48; 64] 48).
  - by_compute.
  - by_compute.
  - vm_compute. reflexivity.
Defined.

(** ** Insertion *)

(** C6.  For a ring with sentinel [head] and a live link [n] that is not
    in the ring: [list_add n head] followed by reading [head->next]
    yields [n], and [list_add_tail n head] followed by reading
    [head->prev] yields [n]. *)
Theorem add_then_read h head l n :
  ring h head l → live h n → n ∉ head :: l →
  (∃ h', (list_add n head;; load_next head) h = Some (n, h'))
  ∧ (∃ h', (list_add_tail n head;; load_prev head) h = Some (n, h')).
Proof.
  intros R Ln Hn.
  destruct (ring_head _ _ _ R) as [[Hnx _] [_ Hpv]].
  assert (live h (List.hd head l)).
  { eapply ring_live; [done|]. pose proof (hd_elem l head). set_solver. }
  assert (live h (List.last l head)).
  { eapply ring_live; [done|]. apply last_elem. }
  assert (live h head) by solve_live.
  assert (head ≠ n) by set_solver.
  split; eexists.
  - erewrite bind_run by (by apply list_add_run).
    apply load_next_run. fields. by decided.
  - erewrite bind_run by (by apply list_add_tail_run).
    apply load_prev_run. fields. by decided.
Qed.

Lemma add_then_read_witness :
  (∃ h', (list_add 80 16;; load_next 16) mem_three = Some (80, h'))
  ∧ (∃ h', (list_add_tail 80 16;; load_prev 16) mem_three = Some (80, h')).
Proof.
  apply (add_then_read mem_three 16 [32; 48; 64] 80).
  - by_compute.
  - by_compute.
  - by_compute.
Defined.

(** C7.  For an isolated [head] ([head->next == head->prev == head]) and
    a live link [n] other than [head]: [list_add_tail n head] followed by
    [list_del n] succeeds and leaves [head->next == head->prev == head];
    [list_empty head] is true again. *)
Theorem add_tail_del_roundtrip h head n :
  nextf h head = Some head → prevf h head = Some head →
  live h n → n ≠ head →
  ∃ h', (list_add_tail n head;; list_del n) h = Some (tt, h')
    ∧ nextf h' head = Some head ∧ prevf h' head = Some head
    ∧ list_empty head h' = Some (true, h').
Proof.
  intros Hnx Hpv Ln Nn. assert (live h head) by solve_live.
  eexists. split.
  - erewrite bind_run by (by apply list_add_tail_run).
    apply list_del_run; fields; decided; solve_live.
  - assert (∀ x y : Z, x ≠ y → y ≠ x) as Hsym by (intros; congruence).
    pose proof (Hsym _ _ Nn).
    split_and!.
    + fields. by decided.
    + fields. by decided.
    + unfold list_empty. erewrite bind_run by (apply load_next_run; fields; by decided).
      unfold mret, M_ret, ret. by rewrite bool_decide_eq_true_2.
Qed.

Lemma add_tail_del_roundtrip_witness :
  ∃ h', (list_add_tail 80 16;; list_del 80) mem_empty = Some (tt, h')
    ∧ nextf h' 16 = Some 16 ∧ prevf h' 16 = Some 16
    ∧ list_empty 16 h' = Some (true, h').
Proof.
  apply (add_tail_del_roundtrip mem_empty 16 80).
  - vm_compute. reflexivity.
  - vm_compute. reflexivity.
  - by_compute.
  - by_compute.
Defined.

(** ** Replacement *)

(** C10.  For an isolated [old] ([old->next == old->prev == old]) and a
    live link [new] other than [old]: [list_replace old new] succeeds and
    leaves [new->next == new->prev == new]. *)
Theorem list_replace_isolated h old new :
  nextf h old = Some old → prevf h old = Some old →
  live h new → new ≠ old →
  ∃ h', list_replace old new h = Some (tt, h')
    ∧ nextf h' new = Some new ∧ prevf h' new = Some new
    ∧ list_empty new h' = Some (true, h').
Proof.
  intros Hnx Hpv Ln Nn. assert (live h old) by solve_live.
  eexists. split; [by apply list_replace_run|].
  rewrite decide_True by done. simpl.
  assert (nextf (upd_next new new (upd_prev new new (upd_prev old new (upd_next new old h)))) new
          = Some new) as E by (fields; by decided).
  split_and!; [done | fields; by decided |].
  unfold list_empty. erewrite bind_run by (by apply load_next_run).
  unfold mret, M_ret, ret. by rewrite bool_decide_eq_true_2.
Qed.

Lemma list_replace_isolated_witness :
  ∃ h', list_replace 16 80 mem_empty = Some (tt, h')
    ∧ nextf h' 80 = Some 80 ∧ prevf h' 80 = Some 80
    ∧ list_empty 80 h' = Some (true, h').
Proof.
  apply (list_replace_isolated mem_empty 16 80).
  - vm_compute. reflexivity.
  - vm_compute. reflexivity.
  - by_compute.
  - by_compute.
Defined.

Lemma ring_frame h h' head l :
  (∀ x, x ∈ head :: l → nextf h' x = nextf h x ∧ prevf h' x = prevf h x) →
  ring h head l → ring h' head l.
Proof.
  intros F [ND P]. split; [done|]. apply path_frame with h; [| |done].
  - change (head :: l ++ [head]) with ((head :: l) ++ [head]).
    rewrite removelast_last. intros x Hx. by apply F.
  - simpl. intros x Hx. apply F. set_solver.
Qed.

Lemma list_replace_ring h head l1 old l2 new :
  ring h head (l1 ++ old :: l2) → live h new → new ∉ head :: l1 ++ old :: l2 →
  ∃ h', list_replace old new h = Some (tt, h')
    ∧ ring h' head (l1 ++ new :: l2)
    ∧ live h' old
    ∧ nextf h' old = nextf h old ∧ prevf h' old = prevf h old.
Proof.
  intros R Lnew Hnew.
  destruct (ring_entry _ _ _ _ _ R) as ([Hpn Hep] & [Hen Hnp] & Npe & Nne & Neh).
  pose proof (proj1 R) as ND.
  pose proof (hd_elem l2 head) as Hn.
  pose proof (last_elem l1 head) as Hp.
  remember (List.last l1 head) as p eqn:Ep.
  remember (List.hd head l2) as n eqn:En.
  assert (Lp : live h p) by solve_live.
  assert (Ln : live h n) by solve_live.
  assert (Lo : live h old) by solve_live.
  assert (Nnp : new ≠ p) by set_solver.
  assert (Nnn : new ≠ n) by set_solver.
  assert (Nno : new ≠ old) by set_solver.
  apply NoDup_cons in ND as [Hh ND].
  apply NoDup_app in ND as (ND1 & D & ND2). apply NoDup_cons in ND2 as [Ho ND2].
  eexists. split; [by apply list_replace_run|].
  rewrite decide_False by done. simpl. split_and!.
  - apply (ring_splice h _ head l1 [old] [new] l2 R).
    + simpl. apply NoDup_cons. split; [set_solver|].
      apply NoDup_app. split_and!; [done | set_solver |].
      apply NoDup_cons. set_solver.
    + rewrite <- Ep. intros x Hx Hxp. assert (x ≠ new) by set_solver.
      fields. by decided.
    + rewrite <- En. intros x Hx Hxp. assert (x ≠ new) by set_solver.
      fields. by decided.
    + rewrite <- Ep, <- En. simpl. unfold adjacent. split_and!; try done; fields; by decided.
  - solve_live.
  - fields. by decided.
  - fields. by decided.
Qed.

(** C5.  For a ring with sentinel [head] whose entries are
    [l1 ++ old :: l2] and a live link [new] that is not in the ring:
    the forward traversal visits [l1 ++ old :: l2] before the call and
    [l1 ++ new :: l2] after [list_replace old new]; the same holds
    after [list_replace_init old new], and then
    [old->next == old->prev == old]. *)
Theorem list_replace_traversal h head l1 old l2 new fuel :
  ring h head (l1 ++ old :: l2) → live h new → new ∉ head :: l1 ++ old :: l2 →
  (length (l1 ++ old :: l2) < fuel)%nat →
  list_for_each fuel head visit [] h = Some (l1 ++ old :: l2, h)
  ∧ (∃ h', list_replace old new h = Some (tt, h')
       ∧ list_for_each fuel head visit [] h' = Some (l1 ++ new :: l2, h'))
  ∧ (∃ h', list_replace_init old new h = Some (tt, h')
       ∧ list_for_each fuel head visit [] h' = Some (l1 ++ new :: l2, h')
       ∧ nextf h' old = Some old ∧ prevf h' old = Some old).
Proof.
  intros R Lnew Hnew Hf.
  assert (Hf' : (length (l1 ++ new :: l2) < fuel)%nat).
  { rewrite length_app in *. simpl in *. lia. }
  destruct (list_replace_ring _ _ _ _ _ _ R Lnew Hnew) as (h' & Hrun & R' & Lo & _).
  split_and!.
  - by apply list_for_each_ring.
  - exists h'. split; [done|]. by apply list_for_each_ring.
  - eexists. split.
    + unfold list_replace_init. erewrite bind_run by exact Hrun.
      by apply INIT_LIST_HEAD_run.
    + assert (old ∉ head :: l1 ++ new :: l2).
      { destruct R as [ND _]. apply NoDup_cons in ND as [Hh ND].
        apply NoDup_app in ND as (ND1 & D & ND2). apply NoDup_cons in ND2 as [Ho ND2].
        set_solver. }
      split_and!; [| fields; by decided | fields; by decided].
      apply list_for_each_ring; [|done].
      apply ring_frame with h'; [|done].
      intros x Hx. assert (x ≠ old) by (intros ->; done).
      split; fields; by decided.
Qed.

Lemma list_replace_traversal_witness :
  list_for_each 4 16 visit [] mem_three = Some ([32] ++ 48 :: [64], mem_three)
  ∧ (∃ h', list_replace 48 80 mem_three = Some (tt, h')
       ∧ list_for_each 4 16 visit [] h' = Some ([32] ++ 80 :: [64], h'))
  ∧ (∃ h', list_replace_init 48 80 mem_three = Some (tt, h')
       ∧ list_for_each 4 16 visit [] h' = Some ([32] ++ 80 :: [64], h')
       ∧ nextf h' 48 = Some 48 ∧ prevf h' 48 = Some 48).
Proof.
  apply (list_replace_traversal mem_three 16 [32] 48 [64] 80 4).
  - by_compute.
  - by_compute.
  - by_compute.
  - simpl. lia.
Defined.

(** ** Entry recovery *)

Lemma ptr_wrap_sub_add ptr_bits p k :
  valid_ptr ptr_bits p →
  ptr_wrap ptr_bits (ptr_wrap ptr_bits (p - ptr_wrap ptr_bits k) + k) = p.
Proof.
  unfold valid_ptr, ptr_wrap. intros Hp. set (m := 2 ^ ptr_bits) in *.
  assert (0 < m) by lia.
  rewrite Zplus_mod_idemp_l.
  pose proof (Z.div_mod k m ltac:(lia)) as Hk.
  replace (p - k mod m + k) with (p + (k / m) * m) by lia.
  rewrite Z_mod_plus_full. by apply Z.mod_small.
Qed.

Lemma member_addr_container_of ptr_bits p k :
  valid_ptr ptr_bits p →
  member_addr ptr_bits (container_of ptr_bits p k) k = p.
Proof.
  intros Hp. unfold member_addr at 1, container_of, offsetof, member_addr.
  rewrite Z.add_0_l. by apply ptr_wrap_sub_add.
Qed.

Lemma container_of_inj ptr_bits k x y :
  valid_ptr ptr_bits x → valid_ptr ptr_bits y →
  container_of ptr_bits x k = container_of ptr_bits y k → x = y.
Proof.
  intros Hx Hy E.
  rewrite <- (member_addr_container_of ptr_bits x k Hx).
  rewrite <- (member_addr_container_of ptr_bits y k Hy).
  by rewrite E.
Qed.

(** C8.  For a link at a representable address [p] embedded at offset
    [k]: computing the entry address with [container_of] (which
    subtracts [offsetof]) and then the address of the entry's member
    (which adds [k]) gives [p] back.  Both are functions of addresses
    alone; no memory is read. *)
Theorem container_of_roundtrip ptr_bits p k :
  valid_ptr ptr_bits p →
  member_addr ptr_bits (list_entry ptr_bits p k) k = p
  ∧ member_addr ptr_bits (container_of ptr_bits p k) k = p.
Proof.
  intros Hp.
  assert (E : offsetof ptr_bits k = ptr_wrap ptr_bits k).
  { unfold offsetof, member_addr. by rewrite Z.add_0_l. }
  unfold list_entry, container_of. rewrite E. unfold member_addr.
  split; by apply ptr_wrap_sub_add.
Qed.

Lemma container_of_roundtrip_witness :
  member_addr 64 (list_entry 64 32 8) 8 = 32
  ∧ member_addr 64 (container_of 64 32 8) 8 = 32.
Proof. apply (container_of_roundtrip 64 32 8). by_compute. Defined.

(** ** Removal-safe traversal *)

Lemma ring_nil_fields h head :
  ring h head [] → nextf h head = Some head ∧ prevf h head = Some head.
Proof. intros R. destruct (ring_head _ _ _ R) as [[? _] [_ ?]]. done. Qed.

Lemma visit_del_run ptr_bits k pos acc h h1 :
  list_del (member_addr ptr_bits pos k) h = Some (tt, h1) →
  visit_del ptr_bits k pos acc h = Some (acc ++ [pos], h1).
Proof. intros E. unfold visit_del. by erewrite bind_run by exact E. Qed.

Lemma list_next_entry_run ptr_bits k pos y h :
  nextf h (member_addr ptr_bits pos k) = Some y →
  list_next_entry ptr_bits pos k h = Some (container_of ptr_bits y k, h).
Proof.
  intros E. unfold list_next_entry. by erewrite bind_run by (by apply load_next_run).
Qed.

Lemma list_first_entry_run ptr_bits k head y h :
  nextf h head = Some y →
  list_first_entry ptr_bits head k h = Some (container_of ptr_bits y k, h).
Proof.
  intros E. unfold list_first_entry. by erewrite bind_run by (by apply load_next_run).
Qed.

Lemma list_for_each_entry_safe_from_ring ptr_bits k head l :
  ∀ h acc fuel y,
    ring h head l → Forall (valid_ptr ptr_bits) (head :: l) →
    nextf h (List.hd head l) = Some y →
    (length l < fuel)%nat →
    ∃ h', list_for_each_entry_safe_from ptr_bits fuel k head (visit_del ptr_bits k)
            (container_of ptr_bits (List.hd head l) k) (container_of ptr_bits y k) acc h
          = Some (acc ++ ((λ x, container_of ptr_bits x k) <$> l), h')
        ∧ ring h' head [].
Proof.
  induction l as [|x l IH]; intros h acc fuel y R V Hy Hf.
  - destruct fuel as [|fuel]; [simpl in Hf; lia|]. simpl.
    apply Forall_cons in V as [Vh _].
    rewrite (member_addr_container_of _ _ _ Vh), decide_True by done.
    exists h. by rewrite app_nil_r.
  - destruct fuel as [|fuel]; [simpl in Hf; lia|].
    apply Forall_cons in V as [Vh V]. apply Forall_cons in V as [Vx V].
    destruct (ring_entry h head [] x l R) as (_ & [Hxn _] & _ & _ & Nxh).
    destruct (list_del_ring h head [] x l R) as [Hdel R'].
    simpl in Hy, Hdel, R'. rewrite Hxn in Hy. injection Hy as <-.
    set (h1 := upd_prev x LIST_POISON2 (upd_next x LIST_POISON1
                 (upd_next head (List.hd head l) (upd_prev (List.hd head l) head h)))) in *.
    assert (Vy : valid_ptr ptr_bits (List.hd head l)).
    { pose proof (hd_elem l head) as Hel.
      apply elem_of_app in Hel as [Hel|Hel].
      - rewrite Forall_forall in V. by apply V.
      - apply list_elem_of_singleton in Hel. by rewrite Hel. }
    destruct (ring_head _ _ _ R') as [[Hy' _] _].
    destruct (ring_link h1 head l (List.hd head l) R') as (y' & _ & [Hny _] & _).
    { pose proof (hd_elem l head). set_solver. }
    destruct (IH h1 (acc ++ [container_of ptr_bits x k]) fuel y' R')
      as (h' & Hrun & Rfin); [by apply Forall_cons | done | simpl in Hf; lia |].
    exists h'. split; [|done].
    simpl. rewrite (member_addr_container_of _ _ _ Vx), decide_False by done.
    erewrite bind_run
      by (apply visit_del_run; by rewrite (member_addr_container_of _ _ _ Vx)).
    erewrite bind_run
      by (apply list_next_entry_run; by rewrite (member_addr_container_of _ _ _ Vy)).
    rewrite Hrun. by rewrite <- app_assoc.
Qed.

(** C3.  For a ring with sentinel [head] whose [N] entries are embedded
    at offset [k] (the links [l], at representable addresses):
    [list_for_each_entry_safe] with a body that calls [list_del] on the
    visited entry terminates, its visits are exactly the [N] entries of
    the ring in order, each once, and afterwards [head->next == head]. *)
Theorem safe_traversal_removes_all ptr_bits k h head l fuel :
  ring h head l → Forall (valid_ptr ptr_bits) (head :: l) →
  (length l < fuel)%nat →
  ∃ h' visits,
    list_for_each_entry_safe ptr_bits fuel k head (visit_del ptr_bits k) [] h
    = Some (visits, h')
    ∧ visits = (λ x, container_of ptr_bits x k) <$> l
    ∧ length visits = length l
    ∧ NoDup visits
    ∧ nextf h' head = Some head ∧ prevf h' head = Some head
    ∧ list_empty head h' = Some (true, h').
Proof.
  intros R V Hf.
  destruct (ring_head _ _ _ R) as [[Hn _] _].
  destruct (ring_link h head l (List.hd head l) R) as (y & _ & [Hy _] & _).
  { pose proof (hd_elem l head). set_solver. }
  assert (Vy : valid_ptr ptr_bits (List.hd head l)).
  { rewrite Forall_forall in V. apply V. pose proof (hd_elem l head). set_solver. }
  destruct (list_for_each_entry_safe_from_ring ptr_bits k head l h [] fuel y R V Hy Hf)
    as (h' & Hrun & Rfin).
  destruct (ring_nil_fields _ _ Rfin) as [Hn' Hp'].
  exists h', ((λ x, container_of ptr_bits x k) <$> l). split_and!; try done.
  - unfold list_for_each_entry_safe.
    erewrite bind_run by (by apply list_first_entry_run).
    erewrite bind_run
      by (apply list_next_entry_run; by rewrite (member_addr_container_of _ _ _ Vy)).
    exact Hrun.
  - by rewrite length_fmap.
  - apply NoDup_fmap_2_strong;
      [|destruct R as [ND _]; by apply NoDup_cons in ND as [_ ?]].
    rewrite Forall_forall in V. intros x y' Hx Hy' E.
    apply (container_of_inj ptr_bits k); [apply V | apply V | done]; set_solver.
  - unfold list_empty. erewrite bind_run by (by apply load_next_run).
    unfold mret, M_ret, ret. by rewrite bool_decide_eq_true_2.
Qed.

Lemma safe_traversal_removes_all_witness :
  ∃ h' visits,
    list_for_each_entry_safe 64 4 8 16 (visit_del 64 8) [] mem_three
    = Some (visits, h')
    ∧ visits = (λ x, container_of 64 x 8) <$> [32; 48; 64]
    ∧ length visits = length [32; 48; 64]
    ∧ NoDup visits
    ∧ nextf h' 16 = Some 16 ∧ prevf h' 16 = Some 16
    ∧ list_empty 16 h' = Some (true, h').
Proof.
  apply (safe_traversal_removes_all 64 8 mem_three 16 [32; 48; 64] 4).
  - by_compute.
  - by_compute.
  - simpl. lia.
Defined.

(** ** The invariant of the links, operation by operation *)

Ltac wf_finish :=
  fields; repeat case_decide; subst; simpl in *;
  first [ done | congruence | set_solver
        | set_unfold; split_and?; first [ done | congruence | tauto ] ].

Lemma INIT_LIST_HEAD_wf h (S : gset Z) x :
  links_wf h S → live h x → x ∉ S →
  ∃ h', INIT_LIST_HEAD x h = Some (tt, h') ∧ links_wf h' ({[x]} ∪ S).
Proof.
  intros W Lx Hx. eexists. split; [by apply INIT_LIST_HEAD_run|].
  apply links_wf_intro. intros y Hy.
  destruct (decide (y = x)) as [->|Ny].
  - exists x, x. split_and!; wf_finish.
  - assert (HyS : y ∈ S) by set_solver.
    destruct (links_wf_at _ _ _ W HyS) as (n & p & Hn & Hp & Hnp & Hpn & HnS & HpS).
    assert (n ≠ x) by (intros ->; done). assert (p ≠ x) by (intros ->; done).
    exists n, p. split_and!; wf_finish.
Qed.

Lemma list_add_wf h (S : gset Z) new head :
  links_wf h S → head ∈ S → live h new → new ∉ S →
  ∃ h', list_add new head h = Some (tt, h') ∧ links_wf h' ({[new]} ∪ S).
Proof.
  intros W Hh Lnew Hnew.
  destruct (links_wf_at _ _ _ W Hh) as (n & p & Hn & Hp & Hnp & Hpn & HnS & HpS).
  assert (Ln : live h n) by solve_live.
  assert (Lh : live h head) by solve_live.
  assert (head ≠ new) by (intros ->; done).
  assert (n ≠ new) by (intros ->; done).
  assert (p ≠ new) by (intros ->; done).
  eexists. split; [by apply list_add_run|].
  apply links_wf_intro. intros x Hx.
  destruct (decide (x = new)) as [->|Nx].
  - exists n, head. split_and!; wf_finish.
  - assert (HxS : x ∈ S) by set_solver.
    destruct (links_wf_at _ _ _ W HxS) as (nx & px & Hnx & Hpx & Hnpx & Hpnx & HnxS & HpxS).
    assert (nx ≠ new) by (intros ->; done).
    assert (px ≠ new) by (intros ->; done).
    exists (if decide (x = head) then new else nx),
           (if decide (x = n) then new else px).
    split_and!; wf_finish.
Qed.

Lemma list_add_tail_wf h (S : gset Z) new head :
  links_wf h S → head ∈ S → live h new → new ∉ S →
  ∃ h', list_add_tail new head h = Some (tt, h') ∧ links_wf h' ({[new]} ∪ S).
Proof.
  intros W Hh Lnew Hnew.
  destruct (links_wf_at _ _ _ W Hh) as (n & p & Hn & Hp & Hnp & Hpn & HnS & HpS).
  assert (Lp : live h p) by solve_live.
  assert (Lh : live h head) by solve_live.
  assert (head ≠ new) by (intros ->; done).
  assert (n ≠ new) by (intros ->; done).
  assert (p ≠ new) by (intros ->; done).
  eexists. split; [by apply list_add_tail_run|].
  apply links_wf_intro. intros x Hx.
  destruct (decide (x = new)) as [->|Nx].
  - exists head, p. split_and!; wf_finish.
  - assert (HxS : x ∈ S) by set_solver.
    destruct (links_wf_at _ _ _ W HxS) as (nx & px & Hnx & Hpx & Hnpx & Hpnx & HnxS & HpxS).
    assert (nx ≠ new) by (intros ->; done).
    assert (px ≠ new) by (intros ->; done).
    exists (if decide (x = p) then new else nx),
           (if decide (x = head) then new else px).
    split_and!; wf_finish.
Qed.

Lemma list_del_wf h (S : gset Z) e :
  links_wf h S → e ∈ S →
  ∃ h', list_del e h = Some (tt, h') ∧ links_wf h' (S ∖ {[e]}).
Proof.
  intros W He.
  destruct (links_wf_at _ _ _ W He) as (n & p & Hn & Hp & Hnp & Hpn & HnS & HpS).
  assert (Lp : live h p) by solve_live.
  assert (Ln : live h n) by solve_live.
  assert (Le : live h e) by solve_live.
  eexists. split; [by apply list_del_run|].
  apply links_wf_intro. intros x Hx.
  apply elem_of_difference in Hx as [HxS Nx]. rewrite elem_of_singleton in Nx.
  destruct (links_wf_at _ _ _ W HxS) as (nx & px & Hnx & Hpx & Hnpx & Hpnx & HnxS & HpxS).
  exists (if decide (x = p) then n else nx),
         (if decide (x = n) then p else px).
  split_and!; wf_finish.
Qed.

Lemma list_replace_wf h (S : gset Z) old new :
  links_wf h S → old ∈ S → live h new → new ∉ S →
  ∃ h', list_replace old new h = Some (tt, h')
        ∧ links_wf h' ({[new]} ∪ S ∖ {[old]})
        ∧ live h' old.
Proof.
  intros W Ho Lnew Hnew.
  destruct (links_wf_at _ _ _ W Ho) as (n & p & Hn & Hp & Hnp & Hpn & HnS & HpS).
  assert (Lp : live h p) by solve_live.
  assert (Ln : live h n) by solve_live.
  assert (Lo : live h old) by solve_live.
  assert (old ≠ new) by (intros ->; done).
  assert (n ≠ new) by (intros ->; done).
  assert (p ≠ new) by (intros ->; done).
  eexists. split; [by apply list_replace_run|].
  destruct (decide (old = n)) as [<-|Non]; simpl.
  - assert (p = old) as -> by congruence.
    split_and!.
    + apply links_wf_intro. intros x Hx.
      destruct (decide (x = new)) as [->|Nx].
      * exists new, new. split_and!; wf_finish.
      * assert (HxS : x ∈ S) by set_solver.
        assert (Nxo : x ≠ old) by set_solver.
        destruct (links_wf_at _ _ _ W HxS)
          as (nx & px & Hnx & Hpx & Hnpx & Hpnx & HnxS & HpxS).
        assert (nx ≠ new) by (intros ->; done).
        assert (px ≠ new) by (intros ->; done).
        exists nx, px. split_and!; wf_finish.
    + solve_live.
  - assert (p ≠ old) by congruence.
    split_and!.
    + apply links_wf_intro. intros x Hx.
      destruct (decide (x = new)) as [->|Nx].
      * exists n, p. split_and!; wf_finish.
      * assert (HxS : x ∈ S) by set_solver.
        assert (Nxo : x ≠ old) by set_solver.
        destruct (links_wf_at _ _ _ W HxS)
          as (nx & px & Hnx & Hpx & Hnpx & Hpnx & HnxS & HpxS).
        assert (nx ≠ new) by (intros ->; done).
        assert (px ≠ new) by (intros ->; done).
        exists (if decide (x = p) then new else nx),
               (if decide (x = n) then new else px).
        split_and!; wf_finish.
    + solve_live.
Qed.

Lemma list_replace_init_wf h (S : gset Z) old new :
  links_wf h S → old ∈ S → live h new → new ∉ S →
  ∃ h', list_replace_init old new h = Some (tt, h') ∧ links_wf h' ({[new]} ∪ S).
Proof.
  intros W Ho Lnew Hnew.
  destruct (list_replace_wf _ _ _ _ W Ho Lnew Hnew) as (h1 & Hrun & W1 & Lo).
  destruct (INIT_LIST_HEAD_wf h1 _ old W1 Lo) as (h2 & Hinit & W2); [set_solver|].
  exists h2. split.
  - unfold list_replace_init. by erewrite bind_run by exact Hrun.
  - replace ({[new]} ∪ S) with ({[old]} ∪ ({[new]} ∪ S ∖ {[old]})); [done|].
    apply set_eq. intros x. destruct (decide (x = old)); set_solver.
Qed.

(** C1.  Let [S] be the set of the links that are in rings, each
    satisfying [x->next->prev == x] and [x->prev->next == x] with its
    neighbours in [S] again.  Each operation, called within its
    precondition (the node to insert is live and in no ring, the node to
    remove or replace is in a ring), succeeds, and afterwards every link
    of the rings again satisfies the invariant: [INIT_LIST_HEAD] and
    the two insertions add the new link to [S], [list_del] takes the
    removed link out, [list_replace] puts [new] in the place of [old],
    and [list_replace_init] adds [new] and keeps [old] as a ring of its
    own. *)
Theorem ring_invariant_preserved h (S : gset Z) :
  links_wf h S →
  (∀ x, live h x → x ∉ S →
     ∃ h', INIT_LIST_HEAD x h = Some (tt, h')
           ∧ links_wf h' ({[x]} ∪ S) ∧ ∀ y, y ∈ {[x]} ∪ S → link_ok h' y)
  ∧ (∀ new head, head ∈ S → live h new → new ∉ S →
     ∃ h', list_add new head h = Some (tt, h')
           ∧ links_wf h' ({[new]} ∪ S) ∧ ∀ y, y ∈ {[new]} ∪ S → link_ok h' y)
  ∧ (∀ new head, head ∈ S → live h new → new ∉ S →
     ∃ h', list_add_tail new head h = Some (tt, h')
           ∧ links_wf h' ({[new]} ∪ S) ∧ ∀ y, y ∈ {[new]} ∪ S → link_ok h' y)
  ∧ (∀ e, e ∈ S →
     ∃ h', list_del e h = Some (tt, h')
           ∧ links_wf h' (S ∖ {[e]}) ∧ ∀ y, y ∈ S ∖ {[e]} → link_ok h' y)
  ∧ (∀ old new, old ∈ S → live h new → new ∉ S →
     ∃ h', list_replace old new h = Some (tt, h')
           ∧ links_wf h' ({[new]} ∪ S ∖ {[old]})
           ∧ ∀ y, y ∈ {[new]} ∪ S ∖ {[old]} → link_ok h' y)
  ∧ (∀ old new, old ∈ S → live h new → new ∉ S →
     ∃ h', list_replace_init old new h = Some (tt, h')
           ∧ links_wf h' ({[new]} ∪ S) ∧ ∀ y, y ∈ {[new]} ∪ S → link_ok h' y).
Proof.
  intros W. split_and!.
  - intros x Lx Hx. destruct (INIT_LIST_HEAD_wf _ _ _ W Lx Hx) as (h' & ? & W').
    exists h'. split_and!; [done | done |]. intros y Hy. by apply W'.
  - intros new head Hh Ln Hn.
    destruct (list_add_wf _ _ _ _ W Hh Ln Hn) as (h' & ? & W').
    exists h'. split_and!; [done | done |]. intros y Hy. by apply W'.
  - intros new head Hh Ln Hn.
    destruct (list_add_tail_wf _ _ _ _ W Hh Ln Hn) as (h' & ? & W').
    exists h'. split_and!; [done | done |]. intros y Hy. by apply W'.
  - intros e He. destruct (list_del_wf _ _ _ W He) as (h' & ? & W').
    exists h'. split_and!; [done | done |]. intros y Hy. by apply W'.
  - intros old new Ho Ln Hn.
    destruct (list_replace_wf _ _ _ _ W Ho Ln Hn) as (h' & ? & W' & _).
    exists h'. split_and!; [done | done |]. intros y Hy. by apply W'.
  - intros old new Ho Ln Hn.
    destruct (list_replace_init_wf _ _ _ _ W Ho Ln Hn) as (h' & ? & W').
    exists h'. split_and!; [done | done |]. intros y Hy. by apply W'.
Qed.

Lemma ring_invariant_preserved_witness :
  (∀ x, live mem_three x → x ∉ links_three →
     ∃ h', INIT_LIST_HEAD x mem_three = Some (tt, h')
           ∧ links_wf h' ({[x]} ∪ links_three)
           ∧ ∀ y, y ∈ {[x]} ∪ links_three → link_ok h' y)
  ∧ (∀ new head, head ∈ links_three → live mem_three new → new ∉ links_three →
     ∃ h', list_add new head mem_three = Some (tt, h')
           ∧ links_wf h' ({[new]} ∪ links_three)
           ∧ ∀ y, y ∈ {[new]} ∪ links_three → link_ok h' y)
  ∧ (∀ new head, head ∈ links_three → live mem_three new → new ∉ links_three →
     ∃ h', list_add_tail new head mem_three = Some (tt, h')
           ∧ links_wf h' ({[new]} ∪ links_three)
           ∧ ∀ y, y ∈ {[new]} ∪ links_three → link_ok h' y)
  ∧ (∀ e, e ∈ links_three →
     ∃ h', list_del e mem_three = Some (tt, h')
           ∧ links_wf h' (links_three ∖ {[e]})
           ∧ ∀ y, y ∈ links_three ∖ {[e]} → link_ok h' y)
  ∧ (∀ old new, old ∈ links_three → live mem_three new → new ∉ links_three →
     ∃ h', list_replace old new mem_three = Some (tt, h')
           ∧ links_wf h' ({[new]} ∪ links_three ∖ {[old]})
           ∧ ∀ y, y ∈ {[new]} ∪ links_three ∖ {[old]} → link_ok h' y)
  ∧ (∀ old new, old ∈ links_three → live mem_three new → new ∉ links_three →
     ∃ h', list_replace_init old new mem_three = Some (tt, h')
           ∧ links_wf h' ({[new]} ∪ links_three)
           ∧ ∀ y, y ∈ {[new]} ∪ links_three → link_ok h' y).
Proof. apply (ring_invariant_preserved mem_three links_three). by_compute. Defined.

(** ** The operations on the sample memories *)

Example ex_init :
  INIT_LIST_HEAD 8 {[ 8 := mk_list_head 1 2 ]} = Some (tt, {[ 8 := mk_list_head 8 8 ]}).
Proof. vm_compute. reflexivity. Qed.

Example ex_list_empty : list_empty 16 mem_empty = Some (true, mem_empty).
Proof. vm_compute. reflexivity. Qed.

Example ex_list_not_empty : list_empty 16 mem_one = Some (false, mem_one).
Proof. vm_compute. reflexivity. Qed.

Example ex_add_tail_order :
  (list_add_tail 32 16;; list_add_tail 48 16;; list_add_tail 64 16;;
   list_for_each 4 16 visit []) mem_fresh
  = Some ([32; 48; 64], delete 80 mem_three).
Proof. vm_compute. reflexivity. Qed.

Example ex_add_front_order :
  (list_add 32 16;; list_add 48 16;; list_add 64 16;;
   list_for_each 4 16 visit []) mem_fresh
  = Some ([64; 48; 32],
          {[ 16 := mk_list_head 64 32; 64 := mk_list_head 48 16;
             48 := mk_list_head 32 64; 32 := mk_list_head 16 48 ]}).
Proof. vm_compute. reflexivity. Qed.

Example ex_del_unlinked_faults : list_del 0 mem_one = None.
Proof. vm_compute. reflexivity. Qed.

Example ex_for_each_entry :
  list_for_each_entry 64 4 8 16 visit [] mem_three = Some ([24; 40; 56], mem_three).
Proof. vm_compute. reflexivity. Qed.

Example ex_safe_traversal :
  list_for_each_entry_safe 64 4 8 16 (visit_del 64 8) [] mem_three
  = Some ([24; 40; 56],
          {[ 16 := mk_list_head 16 16; 32 := mk_list_head 0 0;
             48 := mk_list_head 0 0; 64 := mk_list_head 0 0;
             80 := mk_list_head 7 9 ]}).
Proof. vm_compute. reflexivity. Qed.

Example ex_out_of_fuel :
  list_for_each 3 16 visit [] mem_three = None.
Proof. vm_compute. reflexivity. Qed.

(** * Further properties of the operations *)

Lemma nextf_insert h p v x :
  nextf (<[p := v]> h) x = if decide (x = p) then Some (next v) else nextf h x.
Proof.
  unfold nextf. rewrite lookup_insert.
  repeat case_decide; subst; done.
Qed.

Lemma prevf_insert h p v x :
  prevf (<[p := v]> h) x = if decide (x = p) then Some (prev v) else prevf h x.
Proof.
  unfold prevf. rewrite lookup_insert.
  repeat case_decide; subst; done.
Qed.

(** Two memories with the same fields everywhere are the same memory. *)
Lemma heap_eq_fields (h1 h2 : gmap Z list_head) :
  (∀ x, nextf h1 x = nextf h2 x) → (∀ x, prevf h1 x = prevf h2 x) → h1 = h2.
Proof.
  intros Hn Hp. apply map_eq. intros x. specialize (Hn x). specialize (Hp x).
  unfold nextf, prevf in *.
  destruct (h1 !! x) as [[n1 p1]|], (h2 !! x) as [[n2 p2]|]; simpl in *; congruence.
Qed.

Lemma ring_hd_nil h head l : ring h head l → List.hd head l = head ↔ l = [].
Proof.
  intros [ND _]. apply NoDup_cons in ND as [Hh _].
  destruct l as [|x l]; simpl; [done|]. split; [|done].
  intros ->. set_solver.
Qed.

(** ** Initialisation and the emptiness test *)

(** X1.  [INIT_LIST_HEAD] on a live object, whatever its fields were,
    leaves exactly the memory that the declaration [LIST_HEAD] gives; in
    it the object is a ring with no entries and [list_empty] is true. *)
Theorem INIT_LIST_HEAD_empty h x :
  live h x →
  INIT_LIST_HEAD x h = Some (tt, LIST_HEAD x h)
  ∧ ring (LIST_HEAD x h) x []
  ∧ list_empty x (LIST_HEAD x h) = Some (true, LIST_HEAD x h).
Proof.
  intros Lx.
  assert (E : upd_prev x x (upd_next x x h) = LIST_HEAD x h).
  { unfold LIST_HEAD. apply heap_eq_fields; intros y.
    - rewrite nextf_insert. fields. done.
    - rewrite prevf_insert. fields. done. }
  assert (Hn : nextf (LIST_HEAD x h) x = Some x).
  { unfold LIST_HEAD. rewrite nextf_insert. by decided. }
  assert (Hp : prevf (LIST_HEAD x h) x = Some x).
  { unfold LIST_HEAD. rewrite prevf_insert. by decided. }
  split_and!.
  - rewrite <- E. by apply INIT_LIST_HEAD_run.
  - split; [apply NoDup_singleton|]. simpl. done.
  - unfold list_empty. erewrite bind_run by (by apply load_next_run).
    unfold mret, M_ret, ret. by rewrite bool_decide_eq_true_2.
Qed.

Lemma INIT_LIST_HEAD_empty_witness :
  INIT_LIST_HEAD 80 mem_three = Some (tt, LIST_HEAD 80 mem_three)
  ∧ ring (LIST_HEAD 80 mem_three) 80 []
  ∧ list_empty 80 (LIST_HEAD 80 mem_three) = Some (true, LIST_HEAD 80 mem_three).
Proof. apply (INIT_LIST_HEAD_empty mem_three 80). by_compute. Defined.

(** X2.  On a ring, [list_empty] returns true exactly when the ring has
    no entries, and leaves the memory as it was. *)
Theorem list_empty_ring h head l :
  ring h head l →
  list_empty head h = Some (bool_decide (l = []), h).
Proof.
  intros R. destruct (ring_head _ _ _ R) as [[Hn _] _].
  unfold list_empty. erewrite bind_run by (by apply load_next_run).
  unfold mret, M_ret, ret. do 2 f_equal.
  apply bool_decide_ext. exact (ring_hd_nil _ _ _ R).
Qed.

Lemma list_empty_ring_witness :
  list_empty 16 mem_three = Some (bool_decide ([32; 48; 64] = []), mem_three).
Proof. apply (list_empty_ring mem_three 16 [32; 48; 64]). by_compute. Defined.

(** ** Insertion at the front and at the back *)

(** X3.  [list_add] of a live link that is in no ring makes it the first
    entry: the ring's entries become [new :: l], and the forward
    traversal visits [new] first and then the old entries in order. *)
Theorem list_add_front h head l new fuel :
  ring h head l → live h new → new ∉ head :: l →
  (S (length l) < fuel)%nat →
  ∃ h', list_add new head h = Some (tt, h')
    ∧ ring h' head (new :: l)
    ∧ list_for_each fuel head visit [] h' = Some (new :: l, h').
Proof.
  intros R Lnew Hnew Hf.
  destruct (list_add_ring _ _ _ _ R Lnew Hnew) as (h' & Hrun & R').
  exists h'. split_and!; [done | done |].
  by apply list_for_each_ring.
Qed.

Lemma list_add_front_witness :
  ∃ h', list_add 80 16 mem_three = Some (tt, h')
    ∧ ring h' 16 (80 :: [32; 48; 64])
    ∧ list_for_each 5 16 visit [] h' = Some (80 :: [32; 48; 64], h').
Proof.
  apply (list_add_front mem_three 16 [32; 48; 64] 80 5).
  - by_compute.
  - by_compute.
  - by_compute.
  - simpl. lia.
Defined.

(** X4.  [list_add_tail] of a live link that is in no ring makes it the
    last entry: the ring's entries become [l ++ [new]], and the forward
    traversal visits the old entries in order and [new] last. *)
Theorem list_add_tail_back h head l new fuel :
  ring h head l → live h new → new ∉ head :: l →
  (S (length l) < fuel)%nat →
  ∃ h', list_add_tail new head h = Some (tt, h')
    ∧ ring h' head (l ++ [new])
    ∧ list_for_each fuel head visit [] h' = Some (l ++ [new], h').
Proof.
  intros R Lnew Hnew Hf.
  destruct (list_add_tail_ring _ _ _ _ R Lnew Hnew) as (h' & Hrun & R').
  exists h'. split_and!; [done | done |].
  apply list_for_each_ring; [done|]. rewrite length_app. simpl. lia.
Qed.

Lemma list_add_tail_back_witness :
  ∃ h', list_add_tail 80 16 mem_three = Some (tt, h')
    ∧ ring h' 16 ([32; 48; 64] ++ [80])
    ∧ list_for_each 5 16 visit [] h' = Some ([32; 48; 64] ++ [80], h').
Proof.
  apply (list_add_tail_back mem_three 16 [32; 48; 64] 80 5).
  - by_compute.
  - by_compute.
  - by_compute.
  - simpl. lia.
Defined.

(** ** Traversals that only read *)

Lemma list_for_each_from_fold {A} (f : A → Z → A) h head l a fuel :
  path h (l ++ [head]) → head ∉ l → (length l < fuel)%nat →
  list_for_each_from fuel head (pure_body f) (List.hd head l) a h
  = Some (List.fold_left f l a, h).
Proof.
  revert a fuel. induction l as [|x l IH]; intros a fuel P Hh Hf.
  - destruct fuel as [|fuel]; [simpl in Hf; lia|]. simpl.
    by rewrite decide_True.
  - destruct fuel as [|fuel]; [simpl in Hf; lia|]. simpl.
    rewrite decide_False by set_solver.
    erewrite bind_run by reflexivity.
    destruct (cons_view l head) as [Q0 EQ].
    change (path h (x :: (l ++ [head]))) in P. rewrite EQ in P.
    apply path_cons in P as [[Hn _] P]. rewrite <- EQ in P.
    erewrite bind_run by (by apply load_next_run).
    apply IH; [done | set_solver | simpl in Hf; lia].
Qed.

(** X5.  On a ring, [list_for_each] with a body that only updates the
    caller's state folds that body over the entries in ring order,
    starting after the head, and leaves the memory as it was. *)
Theorem list_for_each_fold {A} (f : A → Z → A) h head l a fuel :
  ring h head l → (length l < fuel)%nat →
  list_for_each fuel head (pure_body f) a h = Some (List.fold_left f l a, h).
Proof.
  intros R Hf. destruct (ring_head _ _ _ R) as [[Hn _] _].
  destruct R as [ND P]. apply NoDup_cons in ND as [Hh _].
  unfold list_for_each. erewrite bind_run by (by apply load_next_run).
  apply list_for_each_from_fold; [by eapply path_tail | done | done].
Qed.

Lemma list_for_each_fold_witness :
  list_for_each 4 16 (pure_body Z.add) 0 mem_three
  = Some (List.fold_left Z.add [32; 48; 64] 0, mem_three).
Proof.
  apply (list_for_each_fold Z.add mem_three 16 [32; 48; 64] 0 4).
  - by_compute.
  - simpl. lia.
Defined.

(** X6.  The head is no special link for the traversal: started at any
    entry [x] of a ring, [list_for_each] visits all the other links,
    the entries after [x], then the head, then the entries before
    [x]. *)
Theorem list_for_each_from_any_link h head l1 x l2 fuel :
  ring h head (l1 ++ x :: l2) → (length (l1 ++ x :: l2) < fuel)%nat →
  list_for_each fuel x visit [] h = Some (l2 ++ head :: l1, h).
Proof.
  intros R Hf. apply list_for_each_ring; [by apply ring_rotate|].
  rewrite length_app in *. simpl in *. lia.
Qed.

Lemma list_for_each_from_any_link_witness :
  list_for_each 4 48 visit [] mem_three = Some ([64] ++ 16 :: [32], mem_three).
Proof.
  apply (list_for_each_from_any_link mem_three 16 [32] 48 [64] 4).
  - by_compute.
  - simpl. lia.
Defined.

(** ** Entries *)

(** X7.  The other round trip of entry recovery: for an entry at a
    representable address [e], [container_of] applied to the address of
    its member at offset [k] gives [e] back. *)
Theorem container_of_member_addr ptr_bits e k :
  valid_ptr ptr_bits e →
  container_of ptr_bits (member_addr ptr_bits e k) k = e
  ∧ list_entry ptr_bits (member_addr ptr_bits e k) k = e.
Proof.
  intros He.
  assert (E : container_of ptr_bits (member_addr ptr_bits e k) k = e).
  { unfold container_of, offsetof, member_addr, ptr_wrap, valid_ptr in *.
    set (m := 2 ^ ptr_bits) in *. assert (0 < m) by lia.
    rewrite Z.add_0_l, Zminus_mod_idemp_l, Zminus_mod_idemp_r.
    replace (e + k - k) with e by lia. by apply Z.mod_small. }
  split; [exact E | exact E].
Qed.

Lemma container_of_member_addr_witness :
  container_of 64 (member_addr 64 24 8) 8 = 24
  ∧ list_entry 64 (member_addr 64 24 8) 8 = 24.
Proof. apply (container_of_member_addr 64 24 8). by_compute. Defined.

Lemma ring_valid_hd ptr_bits head l :
  Forall (valid_ptr ptr_bits) (head :: l) → valid_ptr ptr_bits (List.hd head l).
Proof.
  intros V. rewrite Forall_forall in V. apply V.
  pose proof (hd_elem l head). set_solver.
Qed.



(** ** Typed traversals *)

Lemma list_for_each_entry_from_fold {A} (f : A → Z → A) ptr_bits k h head l a fuel :
  path h (l ++ [head]) → head ∉ l → Forall (valid_ptr ptr_bits) (head :: l) →
  (length l < fuel)%nat →
  list_for_each_entry_from ptr_bits fuel k head (pure_body f)
    (container_of ptr_bits (List.hd head l) k) a h
  = Some (List.fold_left f ((λ x, container_of ptr_bits x k) <$> l) a, h).
Proof.
  revert a fuel. induction l as [|x l IH]; intros a fuel P Hh V Hf.
  - destruct fuel as [|fuel]; [simpl in Hf; lia|]. simpl.
    apply Forall_cons in V as [Vh _].
    by rewrite (member_addr_container_of _ _ _ Vh), decide_True.
  - destruct fuel as [|fuel]; [simpl in Hf; lia|].
    apply Forall_cons in V as [Vh V]. apply Forall_cons in V as [Vx V].
    simpl. rewrite (member_addr_container_of _ _ _ Vx).
    rewrite decide_False by set_solver.
    erewrite bind_run by reflexivity.
    destruct (cons_view l head) as [Q0 EQ].
    change (path h (x :: (l ++ [head]))) in P. rewrite EQ in P.
    apply path_cons in P as [[Hn _] P]. rewrite <- EQ in P.
    erewrite bind_run
      by (apply list_next_entry_run; by rewrite (member_addr_container_of _ _ _ Vx)).
    apply IH; [done | set_solver | by apply Forall_cons | simpl in Hf; lia].
Qed.

Lemma list_for_each_entry_safe_from_fold {A} (f : A → Z → A) ptr_bits k head l :
  ∀ l1 h a fuel y,
    ring h head (l1 ++ l) → Forall (valid_ptr ptr_bits) (head :: l1 ++ l) →
    nextf h (List.hd head l) = Some y →
    (length l < fuel)%nat →
    list_for_each_entry_safe_from ptr_bits fuel k head (pure_body f)
      (container_of ptr_bits (List.hd head l) k) (container_of ptr_bits y k) a h
    = Some (List.fold_left f ((λ x, container_of ptr_bits x k) <$> l) a, h).
Proof.
  induction l as [|x l IH]; intros l1 h a fuel y R V Hy Hf.
  - destruct fuel as [|fuel]; [simpl in Hf; lia|]. simpl.
    apply Forall_cons in V as [Vh _].
    by rewrite (member_addr_container_of _ _ _ Vh), decide_True.
  - destruct fuel as [|fuel]; [simpl in Hf; lia|].
    destruct (ring_entry _ _ _ _ _ R) as (_ & [Hxn _] & _ & _ & Nxh).
    simpl in Hy. rewrite Hxn in Hy. injection Hy as <-.
    assert (Vx : valid_ptr ptr_bits x).
    { rewrite Forall_forall in V. apply V. set_solver. }
    assert (Hel : List.hd head l ∈ head :: l1 ++ x :: l).
    { pose proof (hd_elem l head). set_solver. }
    assert (Vy : valid_ptr ptr_bits (List.hd head l)).
    { rewrite Forall_forall in V. by apply V. }
    destruct (ring_link _ _ _ _ R Hel) as (y' & _ & [Hny _] & _).
    simpl. rewrite (member_addr_container_of _ _ _ Vx), decide_False by done.
    erewrite bind_run by reflexivity.
    erewrite bind_run
      by (apply list_next_entry_run; by rewrite (member_addr_container_of _ _ _ Vy)).
    apply (IH (l1 ++ [x])); [by rewrite <- app_assoc | by rewrite <- app_assoc
                            | done | simpl in Hf; lia].
Qed.

(** X9.  On a ring at representable addresses, [list_for_each_entry]
    and [list_for_each_entry_safe] with a body that only updates the
    caller's state both fold that body over the entries (the
    [container_of] of each link, in ring order) and leave the memory as
    it was; so the two macros agree whenever the body removes
    nothing. *)
Theorem list_for_each_entry_fold {A} (f : A → Z → A) ptr_bits k h head l a fuel :
  ring h head l → Forall (valid_ptr ptr_bits) (head :: l) →
  (length l < fuel)%nat →
  list_for_each_entry ptr_bits fuel k head (pure_body f) a h
  = Some (List.fold_left f ((λ x, container_of ptr_bits x k) <$> l) a, h)
  ∧ list_for_each_entry_safe ptr_bits fuel k head (pure_body f) a h
    = list_for_each_entry ptr_bits fuel k head (pure_body f) a h.
Proof.
  intros R V Hf. destruct (ring_head _ _ _ R) as [[Hn _] _].
  assert (E : list_for_each_entry ptr_bits fuel k head (pure_body f) a h
              = Some (List.fold_left f ((λ x, container_of ptr_bits x k) <$> l) a, h)).
  { destruct R as [ND P]. apply NoDup_cons in ND as [Hh _].
    unfold list_for_each_entry.
    erewrite bind_run by (by apply list_first_entry_run).
    apply list_for_each_entry_from_fold; [by eapply path_tail | done | done | done]. }
  split; [exact E|]. rewrite E.
  assert (Hel : List.hd head l ∈ head :: l).
  { pose proof (hd_elem l head). set_solver. }
  destruct (ring_link _ _ _ _ R Hel) as (y & _ & [Hy _] & _).
  pose proof (ring_valid_hd _ _ _ V) as Vy.
  unfold list_for_each_entry_safe.
  erewrite bind_run by (by apply list_first_entry_run).
  erewrite bind_run
    by (apply list_next_entry_run; by rewrite (member_addr_container_of _ _ _ Vy)).
  by apply (list_for_each_entry_safe_from_fold f ptr_bits k head l []).
Qed.

Lemma list_for_each_entry_fold_witness :
  list_for_each_entry 64 4 8 16 (pure_body Z.add) 0 mem_three
  = Some (List.fold_left Z.add ((λ x, container_of 64 x 8) <$> [32; 48; 64]) 0,
          mem_three)
  ∧ list_for_each_entry_safe 64 4 8 16 (pure_body Z.add) 0 mem_three
    = list_for_each_entry 64 4 8 16 (pure_body Z.add) 0 mem_three.
Proof.
  apply (list_for_each_entry_fold Z.add 64 8 mem_three 16 [32; 48; 64] 0 4).
  - by_compute.
  - by_compute.
  - simpl. lia.
Defined.

(** ** Removal inside a traversal *)

(** X10.  [list_for_each_entry] is not safe against removal: on a ring
    with at least one entry, in a memory where NULL is no object, a body
    that calls [list_del] on the visited entry makes the loop follow the
    poisoned [next] field of the removed entry, and the traversal
    returns no result, whatever the fuel. *)
Theorem list_for_each_entry_del_faults ptr_bits k h head x l fuel :
  ring h head (x :: l) → Forall (valid_ptr ptr_bits) (head :: x :: l) →
  h !! NULL = None →
  list_for_each_entry ptr_bits fuel k head (visit_del ptr_bits k) [] h = None.
Proof.
  intros R V Hnull. destruct (ring_head _ _ _ R) as [[Hn _] _]. simpl in Hn.
  apply Forall_cons in V as [Vh V]. apply Forall_cons in V as [Vx V].
  destruct (ring_entry h head [] x l R) as ([_ Hpx] & [Hxn _] & _ & _ & Nxh).
  destruct (list_del_ring h head [] x l R) as [Hdel _]. simpl in Hpx, Hdel.
  assert (Lh : live h head) by solve_live.
  assert (Lx : live h x) by solve_live.
  assert (Ln : live h (List.hd head l)) by (eapply ring_live; [done|]; pose proof (hd_elem l head); set_solver).
  assert (V0 : valid_ptr ptr_bits NULL) by (unfold valid_ptr, NULL in *; lia).
  assert (N0 : NULL ≠ head) by (intros E; destruct Lh as [? ?]; congruence).
  unfold list_for_each_entry.
  erewrite bind_run by (by apply list_first_entry_run).
  destruct fuel as [|fuel]; [done|]. simpl.
  rewrite (member_addr_container_of _ _ _ Vx), decide_False by done.
  erewrite bind_run
    by (apply visit_del_run; rewrite (member_addr_container_of _ _ _ Vx); exact Hdel).
  erewrite (bind_run _ _ _ (container_of ptr_bits LIST_POISON1 k)); cycle 1.
  { apply list_next_entry_run. rewrite (member_addr_container_of _ _ _ Vx).
    fields. by decided. }
  destruct fuel as [|fuel]; [done|]. simpl.
  change LIST_POISON1 with NULL.
  rewrite (member_addr_container_of _ _ _ V0), decide_False by done.
  apply bind_fault. unfold visit_del. apply bind_fault.
  rewrite (member_addr_container_of _ _ _ V0).
  unfold list_del. apply bind_fault. apply load_prev_fault.
  assert (NULL ≠ x) by (intros E; destruct Lx as [? ?]; congruence).
  assert (NULL ≠ List.hd head l) by (intros E; rewrite <- E in Ln; destruct Ln as [? ?]; congruence).
  by rewrite !lookup_upd_prev_ne, !lookup_upd_next_ne, !lookup_upd_prev_ne.
Qed.

Lemma list_for_each_entry_del_faults_witness :
  list_for_each_entry 64 9 8 16 (visit_del 64 8) [] mem_three = None.
Proof.
  apply (list_for_each_entry_del_faults 64 8 mem_three 16 32 [48; 64] 9).
  - by_compute.
  - by_compute.
  - vm_compute. reflexivity.
Defined.

Lemma list_for_each_entry_safe_from_filter ptr_bits k (P : Z → bool) head l :
  ∀ l1 h acc fuel y,
    ring h head (l1 ++ l) → Forall (valid_ptr ptr_bits) (head :: l1 ++ l) →
    nextf h (List.hd head l) = Some y →
    (length l < fuel)%nat →
    ∃ h', list_for_each_entry_safe_from ptr_bits fuel k head (visit_del_if ptr_bits k P)
            (container_of ptr_bits (List.hd head l) k) (container_of ptr_bits y k) acc h
          = Some (acc ++ ((λ x, container_of ptr_bits x k) <$> l), h')
        ∧ ring h' head
            (l1 ++ filter (λ x, P (container_of ptr_bits x k) = false) l)
        ∧ (∀ z, z ∉ head :: l1 ++ l → h' !! z = h !! z).
Proof.
  induction l as [|x l IH]; intros l1 h acc fuel y R V Hy Hf.
  - destruct fuel as [|fuel]; [simpl in Hf; lia|]. simpl.
    apply Forall_cons in V as [Vh _].
    rewrite (member_addr_container_of _ _ _ Vh), decide_True by done.
    exists h. by rewrite app_nil_r.
  - destruct fuel as [|fuel]; [simpl in Hf; lia|].
    destruct (ring_entry _ _ _ _ _ R) as ([_ Hpx] & [Hxn _] & Npx & Nnx & Nxh).
    simpl in Hy. rewrite Hxn in Hy. injection Hy as <-.
    assert (Vx : valid_ptr ptr_bits x).
    { rewrite Forall_forall in V. apply V. set_solver. }
    assert (Vy : valid_ptr ptr_bits (List.hd head l)).
    { rewrite Forall_forall in V. apply V. pose proof (hd_elem l head). set_solver. }
    rewrite filter_cons.
    destruct (P (container_of ptr_bits x k)) eqn:HP.
    + (* the entry is removed *)
      destruct (list_del_ring _ _ _ _ _ R) as [Hdel R']. simpl in Hdel, R'.
      set (h1 := upd_prev x LIST_POISON2 (upd_next x LIST_POISON1
                   (upd_next (List.last l1 head) (List.hd head l)
                      (upd_prev (List.hd head l) (List.last l1 head) h)))) in *.
      assert (Hel : List.hd head l ∈ head :: l1 ++ l).
      { pose proof (hd_elem l head). set_solver. }
      destruct (ring_link _ _ _ _ R' Hel) as (y' & _ & [Hny _] & _).
      assert (V' : Forall (valid_ptr ptr_bits) (head :: l1 ++ l)).
      { rewrite Forall_forall in *. intros z Hz. apply V. set_solver. }
      destruct (IH l1 h1 (acc ++ [container_of ptr_bits x k]) fuel y' R' V' Hny)
        as (h' & Hrun & Rfin & Hfr); [simpl in Hf; lia|].
      exists h'. rewrite decide_False by done. split_and!; [|done|].
      * simpl. rewrite (member_addr_container_of _ _ _ Vx), decide_False by done.
        erewrite bind_run
          by (unfold visit_del_if; rewrite HP; apply visit_del_run;
              rewrite (member_addr_container_of _ _ _ Vx); exact Hdel).
        erewrite bind_run
          by (apply list_next_entry_run; by rewrite (member_addr_container_of _ _ _ Vy)).
        rewrite Hrun. by rewrite <- app_assoc.
      * intros z Hz. rewrite Hfr by set_solver. unfold h1.
        pose proof (hd_elem l head). pose proof (last_elem l1 head).
        rewrite !lookup_upd_prev_ne, !lookup_upd_next_ne, !lookup_upd_prev_ne;
          [done | | | |]; intros ->; set_solver.
    + (* the entry stays *)
      assert (Hel : List.hd head l ∈ head :: l1 ++ x :: l).
      { pose proof (hd_elem l head). set_solver. }
      destruct (ring_link _ _ _ _ R Hel) as (y' & _ & [Hny _] & _).
      destruct (IH (l1 ++ [x]) h (acc ++ [container_of ptr_bits x k]) fuel y')
        as (h' & Hrun & Rfin & Hfr);
        [by rewrite <- app_assoc | by rewrite <- app_assoc | done | simpl in Hf; lia |].
      exists h'. rewrite decide_True by done. split_and!.
      * simpl. rewrite (member_addr_container_of _ _ _ Vx), decide_False by done.
        erewrite bind_run by (unfold visit_del_if; rewrite HP; reflexivity).
        erewrite bind_run
          by (apply list_next_entry_run; by rewrite (member_addr_container_of _ _ _ Vy)).
        rewrite Hrun. by rewrite <- app_assoc.
      * by rewrite <- app_assoc in Rfin.
      * intros z Hz. apply Hfr. set_solver.
Qed.

(** X11.  On a ring at representable addresses,
    [list_for_each_entry_safe] with a body that removes the visited
    entry when a test [P] holds of it visits every entry once, in ring
    order, whether it is removed or not; afterwards the ring holds
    exactly the entries that failed the test, in their old order, and
    the objects outside the ring are untouched. *)
Theorem safe_traversal_filters ptr_bits k (P : Z → bool) h head l fuel :
  ring h head l → Forall (valid_ptr ptr_bits) (head :: l) →
  (length l < fuel)%nat →
  ∃ h', list_for_each_entry_safe ptr_bits fuel k head (visit_del_if ptr_bits k P) [] h
        = Some ((λ x, container_of ptr_bits x k) <$> l, h')
      ∧ ring h' head (filter (λ x, P (container_of ptr_bits x k) = false) l)
      ∧ (∀ z, z ∉ head :: l → h' !! z = h !! z).
Proof.
  intros R V Hf. destruct (ring_head _ _ _ R) as [[Hn _] _].
  assert (Hel : List.hd head l ∈ head :: l).
  { pose proof (hd_elem l head). set_solver. }
  destruct (ring_link _ _ _ _ R Hel) as (y & _ & [Hy _] & _).
  pose proof (ring_valid_hd _ _ _ V) as Vy.
  destruct (list_for_each_entry_safe_from_filter ptr_bits k P head l [] h [] fuel y)
    as (h' & Hrun & R' & Hfr); [done | done | done | done |].
  exists h'. split_and!; [| done | done].
  unfold list_for_each_entry_safe.
  erewrite bind_run by (by apply list_first_entry_run).
  erewrite bind_run
    by (apply list_next_entry_run; by rewrite (member_addr_container_of _ _ _ Vy)).
  exact Hrun.
Qed.

Lemma safe_traversal_filters_witness :
  ∃ h', list_for_each_entry_safe 64 4 8 16 (visit_del_if 64 8 (Z.eqb 40)) [] mem_three
        = Some ((λ x, container_of 64 x 8) <$> [32; 48; 64], h')
      ∧ ring h' 16 (filter (λ x, Z.eqb 40 (container_of 64 x 8) = false) [32; 48; 64])
      ∧ (∀ z, z ∉ 16 :: [32; 48; 64] → h' !! z = mem_three !! z).
Proof.
  apply (safe_traversal_filters 64 8 (Z.eqb 40) mem_three 16 [32; 48; 64] 4).
  - by_compute.
  - by_compute.
  - simpl. lia.
Defined.

(** ** Compositions of the operations *)

Lemma lookup_eq_fields (h1 h2 : gmap Z list_head) x :
  nextf h1 x = nextf h2 x → prevf h1 x = prevf h2 x → h1 !! x = h2 !! x.
Proof.
  unfold nextf, prevf.
  destruct (h1 !! x) as [[n1 p1]|], (h2 !! x) as [[n2 p2]|]; simpl; congruence.
Qed.

Lemma ring_not_in_split (head : Z) l1 x l2 :
  NoDup (head :: l1 ++ x :: l2) → x ∉ head :: l1 ++ l2.
Proof.
  intros ND. apply NoDup_cons in ND as [Hh ND].
  apply NoDup_app in ND as (_ & D & ND). apply NoDup_cons in ND as [Hx _].
  set_solver.
Qed.

(** X12.  Insertion followed by removal of the same link is a round
    trip on any ring: after [list_add new head] (or [list_add_tail])
    and [list_del new], every object other than [new] has the fields it
    had, and [new] is poisoned. *)
Theorem add_del_restores h head l new :
  ring h head l → live h new → new ∉ head :: l →
  (list_add new head;; list_del new) h
  = Some (tt, <[new := mk_list_head LIST_POISON1 LIST_POISON2]> h)
  ∧ (list_add_tail new head;; list_del new) h
    = Some (tt, <[new := mk_list_head LIST_POISON1 LIST_POISON2]> h).
Proof.
  intros R Lnew Hnew.
  destruct (ring_head _ _ _ R) as [[Hn Hnp] [Hpn Hp]].
  pose proof (hd_elem l head) as Hel. pose proof (last_elem l head) as Hel'.
  remember (List.hd head l) as n eqn:En. remember (List.last l head) as p eqn:Ep.
  assert (Ln : live h n) by solve_live.
  assert (Lp : live h p) by solve_live.
  assert (Lh : live h head) by solve_live.
  assert (new ≠ head) by set_solver.
  assert (new ≠ n) by set_solver. assert (new ≠ p) by set_solver.
  split.
  - erewrite bind_run by (by apply list_add_run).
    erewrite (list_del_run _ new head n);
      [| fields; by decided | fields; by decided | solve_live | solve_live].
    do 2 f_equal. apply heap_eq_fields; intros x.
    + rewrite nextf_insert. fields. repeat case_decide; subst; simpl; congruence.
    + rewrite prevf_insert. fields. repeat case_decide; subst; simpl; congruence.
  - erewrite bind_run by (by apply list_add_tail_run).
    erewrite (list_del_run _ new p head);
      [| fields; by decided | fields; by decided | solve_live | solve_live].
    do 2 f_equal. apply heap_eq_fields; intros x.
    + rewrite nextf_insert. fields. repeat case_decide; subst; simpl; congruence.
    + rewrite prevf_insert. fields. repeat case_decide; subst; simpl; congruence.
Qed.

Lemma add_del_restores_witness :
  (list_add 80 16;; list_del 80) mem_three
  = Some (tt, <[80 := mk_list_head LIST_POISON1 LIST_POISON2]> mem_three)
  ∧ (list_add_tail 80 16;; list_del 80) mem_three
    = Some (tt, <[80 := mk_list_head LIST_POISON1 LIST_POISON2]> mem_three).
Proof.
  apply (add_del_restores mem_three 16 [32; 48; 64] 80).
  - by_compute.
  - by_compute.
  - by_compute.
Defined.

(** X13.  Removal followed by insertion of the same link moves it: the
    insertion overwrites both poisoned fields, so for an entry [n] of a
    ring [list_del n; list_add n head] makes [n] the first entry and
    [list_del n; list_add_tail n head] makes it the last, the other
    entries keeping their order. *)
Theorem del_add_moves h head l1 n l2 :
  ring h head (l1 ++ n :: l2) →
  (∃ h', (list_del n;; list_add n head) h = Some (tt, h')
         ∧ ring h' head (n :: l1 ++ l2))
  ∧ (∃ h', (list_del n;; list_add_tail n head) h = Some (tt, h')
           ∧ ring h' head ((l1 ++ l2) ++ [n])).
Proof.
  intros R. destruct (list_del_ring _ _ _ _ _ R) as [Hdel R']. simpl in Hdel, R'.
  pose proof (ring_not_in_split _ _ _ _ (proj1 R)) as Hn.
  assert (Ln : live h n) by (eapply ring_live; [done|]; set_solver).
  match type of R' with ring ?h1 _ _ => assert (Ln' : live h1 n) by solve_live end.
  split.
  - destruct (list_add_ring _ _ _ _ R' Ln' Hn) as (h' & Hadd & R'').
    exists h'. split; [|done]. by erewrite bind_run by exact Hdel.
  - destruct (list_add_tail_ring _ _ _ _ R' Ln' Hn) as (h' & Hadd & R'').
    exists h'. split; [|done]. by erewrite bind_run by exact Hdel.
Qed.

Lemma del_add_moves_witness :
  (∃ h', (list_del 48;; list_add 48 16) mem_three = Some (tt, h')
         ∧ ring h' 16 (48 :: [32] ++ [64]))
  ∧ (∃ h', (list_del 48;; list_add_tail 48 16) mem_three = Some (tt, h')
           ∧ ring h' 16 (([32] ++ [64]) ++ [48])).
Proof. apply (del_add_moves mem_three 16 [32] 48 [64]). by_compute. Defined.

Lemma list_replace_entry_run h head l1 old l2 new :
  ring h head (l1 ++ old :: l2) → live h new →
  list_replace old new h
  = Some (tt, upd_next (List.last l1 head) new (upd_prev new (List.last l1 head)
                (upd_prev (List.hd head l2) new (upd_next new (List.hd head l2) h)))).
Proof.
  intros R Lnew.
  destruct (ring_entry _ _ _ _ _ R) as ([Hpn Hep] & [Hen Hnp] & Npe & Nne & Neh).
  erewrite list_replace_run; [| done | done | done | solve_live | solve_live].
  by rewrite decide_False.
Qed.

(** X14.  Replacing back is a round trip: for an entry [old] of a ring
    and a live link [new] outside it, [list_replace old new] followed by
    [list_replace new old] gives the ring its old entries again and
    every object other than [new] the fields it had; [new] is left with
    the stale neighbours of [old] in its fields. *)
Theorem list_replace_back h head l1 old l2 new :
  ring h head (l1 ++ old :: l2) → live h new → new ∉ head :: l1 ++ old :: l2 →
  ∃ h', (list_replace old new;; list_replace new old) h = Some (tt, h')
    ∧ ring h' head (l1 ++ old :: l2)
    ∧ (∀ x, x ≠ new → h' !! x = h !! x)
    ∧ nextf h' new = nextf h old ∧ prevf h' new = prevf h old.
Proof.
  intros R Lnew Hnew.
  destruct (ring_entry _ _ _ _ _ R) as ([Hpn Hep] & [Hen Hnp] & Npe & Nne & Neh).
  pose proof (hd_elem l2 head) as Hel. pose proof (last_elem l1 head) as Hel'.
  destruct (list_replace_ring _ _ _ _ _ _ R Lnew Hnew) as (h1 & Hrun1 & R1 & Lo1 & _).
  pose proof (list_replace_entry_run _ _ _ _ _ _ R Lnew) as E1.
  rewrite E1 in Hrun1. injection Hrun1 as <-.
  pose proof (ring_not_in_split _ _ _ _ (proj1 R)) as Hold.
  assert (Hold' : old ∉ head :: l1 ++ new :: l2) by set_solver.
  destruct (list_replace_ring _ _ _ _ _ _ R1 Lo1 Hold') as (h2 & Hrun2 & R2 & _).
  pose proof (list_replace_entry_run _ _ _ _ _ _ R1 Lo1) as E2.
  rewrite E2 in Hrun2. injection Hrun2 as <-.
  remember (List.hd head l2) as n eqn:En. remember (List.last l1 head) as p eqn:Ep.
  assert (Ln : live h n) by solve_live.
  assert (Lp : live h p) by solve_live.
  assert (Lo : live h old) by solve_live.
  assert (new ≠ old) by set_solver.
  assert (new ≠ n) by set_solver. assert (new ≠ p) by set_solver.
  eexists. split_and!.
  - erewrite bind_run by exact E1. exact E2.
  - done.
  - intros x Nx. apply lookup_eq_fields.
    + fields. repeat case_decide; subst; congruence.
    + fields. repeat case_decide; subst; congruence.
  - fields. decided. congruence.
  - fields. decided. congruence.
Qed.

Lemma list_replace_back_witness :
  ∃ h', (list_replace 48 80;; list_replace 80 48) mem_three = Some (tt, h')
    ∧ ring h' 16 ([32] ++ 48 :: [64])
    ∧ (∀ x, x ≠ 80 → h' !! x = mem_three !! x)
    ∧ nextf h' 80 = nextf mem_three 48 ∧ prevf h' 80 = prevf mem_three 48.
Proof.
  apply (list_replace_back mem_three 16 [32] 48 [64] 80).
  - by_compute.
  - by_compute.
  - by_compute.
Defined.

(** ** The head as the node operated on *)

(** X15.  Replacing the head moves the list: for a ring with head [head]
    and a live link [new] outside it, after [list_replace head new] the
    entries are a ring with head [new], in the same order; after
    [list_replace_init head new] this holds too and [head] is an empty
    list of its own. *)
Theorem list_replace_head h head l new :
  ring h head l → live h new → new ∉ head :: l →
  (∃ h', list_replace head new h = Some (tt, h') ∧ ring h' new l)
  ∧ (∃ h', list_replace_init head new h = Some (tt, h')
           ∧ ring h' new l ∧ ring h' head []).
Proof.
  intros R Lnew Hnew.
  assert (Lh : live h head) by (eapply ring_live; [done|]; set_solver).
  assert (Nnh : new ≠ head) by set_solver.
  assert (Hrep : ∃ h1, list_replace head new h = Some (tt, h1)
                       ∧ ring h1 new l ∧ live h1 head).
  { destruct l as [|x l].
    - destruct (ring_nil_fields _ _ R) as [Hn Hp].
      eexists. split; [by apply list_replace_run|].
      rewrite decide_True by done. simpl. split; [|solve_live].
      split; [apply NoDup_singleton|]. simpl. split; [|done].
      split; fields; by decided.
    - pose proof (ring_rotate h head [] x l R) as Rx.
      destruct (list_replace_ring h x l head [] new Rx Lnew) as (h1 & Hrun & R1 & L1 & _).
      { set_solver. }
      exists h1. split_and!; [done | | done].
      exact (ring_rotate h1 x l new [] R1). }
  destruct Hrep as (h1 & Hrun & R1 & L1).
  split; [by exists h1|].
  eexists. split_and!.
  - unfold list_replace_init. erewrite bind_run by exact Hrun.
    by apply INIT_LIST_HEAD_run.
  - apply ring_frame with h1; [|done].
    assert (Hhl : head ∉ l) by (destruct R as [ND _]; by apply NoDup_cons in ND as [? _]).
    intros x Hx. assert (x ≠ head) by (intros ->; set_solver).
    split; fields; by decided.
  - split; [apply NoDup_singleton|]. simpl. split; [|done].
    split; fields; by decided.
Qed.

Lemma list_replace_head_witness :
  (∃ h', list_replace 16 80 mem_three = Some (tt, h') ∧ ring h' 80 [32; 48; 64])
  ∧ (∃ h', list_replace_init 16 80 mem_three = Some (tt, h')
           ∧ ring h' 80 [32; 48; 64] ∧ ring h' 16 []).
Proof.
  apply (list_replace_head mem_three 16 [32; 48; 64] 80).
  - by_compute.
  - by_compute.
  - by_compute.
Defined.

(** X16.  [list_del] of the head of a list with entries succeeds like
    that of any link: the entries stay a ring, with the first entry [x]
    in the place of the head, and the removed head is poisoned. *)
Theorem list_del_head h head x l :
  ring h head (x :: l) →
  ∃ h', list_del head h = Some (tt, h')
    ∧ ring h' x l
    ∧ nextf h' head = Some LIST_POISON1 ∧ prevf h' head = Some LIST_POISON2.
Proof.
  intros R. pose proof (ring_rotate h head [] x l R) as Rx.
  destruct (ring_entry _ _ _ _ _ Rx) as ([Hpn Hep] & [Hen Hnp] & Npe & Nne & Neh).
  destruct (list_del_ring _ _ _ _ _ Rx) as [Hdel R']. simpl in Hdel, R'.
  rewrite app_nil_r in R'.
  assert (live h head) by solve_live.
  assert (live h (List.last l x)) by solve_live.
  assert (live h x) by solve_live.
  eexists. split_and!; [exact Hdel | exact R' | |]; fields; by decided.
Qed.

Lemma list_del_head_witness :
  ∃ h', list_del 16 mem_three = Some (tt, h')
    ∧ ring h' 32 [48; 64]
    ∧ nextf h' 16 = Some LIST_POISON1 ∧ prevf h' 16 = Some LIST_POISON2.
Proof. apply (list_del_head mem_three 16 32 [48; 64]). by_compute. Defined.

(** X17.  A removed link does not test empty.  In a memory where NULL is
    no object, [list_del] of any link of a ring, the head of an empty
    list included, succeeds, and [list_empty] of the removed link then
    returns false, while after [INIT_LIST_HEAD] it returns true.  When
    the link was alone in its ring, only its own two fields change. *)
Theorem list_empty_after_del h head l n :
  ring h head l → n ∈ head :: l → h !! NULL = None →
  ∃ h', list_del n h = Some (tt, h')
    ∧ list_empty n h' = Some (false, h')
    ∧ (INIT_LIST_HEAD n;; list_empty n) h' = Some (true, LIST_HEAD n h')
    ∧ (l = [] → h' = <[n := mk_list_head LIST_POISON1 LIST_POISON2]> h).
Proof.
  intros R Hn Hnull.
  destruct (ring_link _ _ _ _ R Hn) as (nx & pv & [Hnx Hnp] & [Hpn Hpv] & _).
  assert (Ln : live h n) by solve_live.
  assert (Lx : live h nx) by solve_live.
  assert (Lp : live h pv) by solve_live.
  assert (N0 : NULL ≠ n) by (intros E; destruct Ln as [? ?]; congruence).
  eexists. split; [by apply list_del_run|].
  match goal with |- list_empty n ?h1 = _ ∧ _ => set (h' := h1) end.
  assert (Ln' : live h' n) by (unfold h'; solve_live).
  split_and!.
  - unfold list_empty.
    erewrite (bind_run _ _ _ NULL) by (apply load_next_run; unfold h'; fields; by decided).
    unfold mret, M_ret, ret. by rewrite bool_decide_eq_false_2.
  - assert (E : upd_prev n n (upd_next n n h') = LIST_HEAD n h').
    { unfold LIST_HEAD. apply heap_eq_fields; intros y.
      - rewrite nextf_insert. fields. done.
      - rewrite prevf_insert. fields. done. }
    erewrite bind_run by (by apply INIT_LIST_HEAD_run).
    rewrite E. unfold list_empty.
    erewrite (bind_run _ _ _ n)
      by (apply load_next_run; unfold LIST_HEAD; rewrite nextf_insert; by decided).
    unfold mret, M_ret, ret. by rewrite bool_decide_eq_true_2.
  - intros ->. assert (n = head) as -> by set_solver.
    destruct (ring_nil_fields _ _ R) as [Hn' Hp'].
    assert (nx = head) as -> by congruence. assert (pv = head) as -> by congruence.
    unfold h'. apply heap_eq_fields; intros x.
    + rewrite nextf_insert. fields. repeat case_decide; subst; simpl; congruence.
    + rewrite prevf_insert. fields. repeat case_decide; subst; simpl; congruence.
Qed.

Lemma list_empty_after_del_witness :
  ∃ h', list_del 48 mem_three = Some (tt, h')
    ∧ list_empty 48 h' = Some (false, h')
    ∧ (INIT_LIST_HEAD 48;; list_empty 48) h' = Some (true, LIST_HEAD 48 h')
    ∧ ([32; 48; 64] = [] → h' = <[48 := mk_list_head LIST_POISON1 LIST_POISON2]> mem_three).
Proof.
  apply (list_empty_after_del mem_three 16 [32; 48; 64] 48).
  - by_compute.
  - by_compute.
  - vm_compute. reflexivity.
Defined.

(** ** A stale head *)

Lemma list_for_each_from_never h a l head :
  ring h a l → head ∉ a :: l →
  ∀ fuel pos acc, pos ∈ a :: l →
    list_for_each_from fuel head visit pos acc h = None.
Proof.
  intros R Hh. induction fuel as [|fuel IH]; intros pos acc Hpos; [done|].
  simpl. rewrite decide_False by (intros ->; done).
  erewrite bind_run by reflexivity.
  destruct (ring_link _ _ _ _ R Hpos) as (n & _ & [Hn _] & _ & Hin & _).
  erewrite bind_run by (by apply load_next_run).
  by apply IH.
Qed.

(** X18.  [list_replace] leaves [old] pointing into the ring it is no
    longer part of.  A traversal that takes [old] as its head after
    [list_replace old new] walks the ring of [new] without ever meeting
    [old]: it returns no result, whatever the fuel.  After
    [list_replace_init] the same traversal ends at once, [old] being an
    empty list. *)
Theorem list_replace_stale_head h head l1 old l2 new :
  ring h head (l1 ++ old :: l2) → live h new → new ∉ head :: l1 ++ old :: l2 →
  (∃ h', list_replace old new h = Some (tt, h')
         ∧ ∀ fuel, list_for_each fuel old visit [] h' = None)
  ∧ (∃ h', list_replace_init old new h = Some (tt, h')
           ∧ ∀ fuel, list_for_each (S fuel) old visit [] h' = Some ([], h')).
Proof.
  intros R Lnew Hnew.
  destruct (ring_entry _ _ _ _ _ R) as (_ & [Hen _] & _).
  destruct (list_replace_ring _ _ _ _ _ _ R Lnew Hnew) as (h1 & Hrun & R1 & Lo & Hn1 & _).
  pose proof (ring_not_in_split _ _ _ _ (proj1 R)) as Hold.
  split.
  - exists h1. split; [done|]. intros fuel.
    unfold list_for_each. rewrite Hen in Hn1.
    erewrite bind_run by (by apply load_next_run).
    apply (list_for_each_from_never h1 head (l1 ++ new :: l2)); [done | set_solver |].
    pose proof (hd_elem l2 head). set_solver.
  - eexists. split.
    + unfold list_replace_init. erewrite bind_run by exact Hrun.
      by apply INIT_LIST_HEAD_run.
    + intros fuel. unfold list_for_each.
      erewrite bind_run by (apply load_next_run; fields; by decided).
      simpl. by rewrite decide_True.
Qed.

Lemma list_replace_stale_head_witness :
  (∃ h', list_replace 48 80 mem_three = Some (tt, h')
         ∧ ∀ fuel, list_for_each fuel 48 visit [] h' = None)
  ∧ (∃ h', list_replace_init 48 80 mem_three = Some (tt, h')
           ∧ ∀ fuel, list_for_each (S fuel) 48 visit [] h' = Some ([], h')).
Proof.
  apply (list_replace_stale_head mem_three 16 [32] 48 [64] 80).
  - by_compute.
  - by_compute.
  - by_compute.
Defined.

(** ** What an insertion needs of the new link *)

Lemma live_insert (h : gmap Z list_head) p v x : live h x → live (<[p := v]> h) x.
Proof.
  unfold live. rewrite lookup_insert. by case_decide.
Qed.

(** X19.  An insertion reads nothing of the new link: for a ring and a
    live link [new] outside it, [list_add] and [list_add_tail] give the
    same memory whatever the two fields of [new] held before (poison,
    stale neighbours, or nothing meaningful), so the link needs no
    [INIT_LIST_HEAD] first. *)
Theorem list_add_ignores_fields h head l new g :
  ring h head l → live h new → new ∉ head :: l →
  list_add new head (<[new := g]> h) = list_add new head h
  ∧ list_add_tail new head (<[new := g]> h) = list_add_tail new head h.
Proof.
  intros R Lnew Hnew.
  destruct (ring_head _ _ _ R) as [[Hn Hnp] [Hpn Hp]].
  pose proof (hd_elem l head) as Hel. pose proof (last_elem l head) as Hel'.
  remember (List.hd head l) as n eqn:En. remember (List.last l head) as p eqn:Ep.
  assert (Ln : live h n) by solve_live.
  assert (Lp : live h p) by solve_live.
  assert (Lh : live h head) by solve_live.
  assert (new ≠ head) by set_solver.
  assert (new ≠ n) by set_solver. assert (new ≠ p) by set_solver.
  pose proof (live_insert h new g _ Ln) as Ln0.
  pose proof (live_insert h new g _ Lp) as Lp0.
  pose proof (live_insert h new g _ Lh) as Lh0.
  pose proof (live_insert h new g _ Lnew) as Lnew0.
  split.
  - rewrite (list_add_run h new head n) by done.
    rewrite (list_add_run (<[new := g]> h) new head n);
      [| rewrite nextf_insert; by decided | done | done].
    do 2 f_equal. apply heap_eq_fields; intros x.
    + fields. rewrite nextf_insert. repeat case_decide; subst; congruence.
    + fields. rewrite prevf_insert. repeat case_decide; subst; congruence.
  - rewrite (list_add_tail_run h new head p) by done.
    rewrite (list_add_tail_run (<[new := g]> h) new head p);
      [| rewrite prevf_insert; by decided | done | done].
    do 2 f_equal. apply heap_eq_fields; intros x.
    + fields. rewrite nextf_insert. repeat case_decide; subst; congruence.
    + fields. rewrite prevf_insert. repeat case_decide; subst; congruence.
Qed.

Lemma list_add_ignores_fields_witness :
  list_add 80 16 (<[80 := mk_list_head 0 0]> mem_three) = list_add 80 16 mem_three
  ∧ list_add_tail 80 16 (<[80 := mk_list_head 0 0]> mem_three)
    = list_add_tail 80 16 mem_three.
Proof.
  apply (list_add_ignores_fields mem_three 16 [32; 48; 64] 80 (mk_list_head 0 0)).
  - by_compute.
  - by_compute.
  - by_compute.
Defined.

(** ** The set of live objects *)

Lemma keeps_dom_ret {A} (a : A) : keeps_dom (mret a).
Proof. intros h a' h' E. injection E as _ <-. done. Qed.

Lemma keeps_dom_fault {A} : keeps_dom (@fault A).
Proof. intros h a h' E. discriminate E. Qed.

Lemma keeps_dom_bind {A B} (m : M A) (f : A → M B) :
  keeps_dom m → (∀ a, keeps_dom (f a)) → keeps_dom (m ≫= f).
Proof.
  intros Hm Hf h b h' E. unfold mbind, M_bind, bind in E.
  destruct (m h) as [[a h1]|] eqn:E1; [|done].
  rewrite (Hf a _ _ _ E). by eapply Hm.
Qed.

Lemma keeps_dom_load_next p : keeps_dom (load_next p).
Proof.
  intros h a h' E. unfold load_next in E. destruct (h !! p); [|done].
  by injection E as _ <-.
Qed.

Lemma keeps_dom_load_prev p : keeps_dom (load_prev p).
Proof.
  intros h a h' E. unfold load_prev in E. destruct (h !! p); [|done].
  by injection E as _ <-.
Qed.

Lemma keeps_dom_store_next p v : keeps_dom (store_next p v).
Proof.
  intros h a h' E. unfold store_next in E. destruct (h !! p) eqn:El; [|done].
  injection E as _ <-. by apply dom_insert_lookup_L.
Qed.

Lemma keeps_dom_store_prev p v : keeps_dom (store_prev p v).
Proof.
  intros h a h' E. unfold store_prev in E. destruct (h !! p) eqn:El; [|done].
  injection E as _ <-. by apply dom_insert_lookup_L.
Qed.

Ltac keeps_dom_step :=
  first [ apply keeps_dom_ret
        | apply keeps_dom_load_next | apply keeps_dom_load_prev
        | apply keeps_dom_store_next | apply keeps_dom_store_prev
        | apply keeps_dom_bind; [|intros ?] ].

Ltac keeps_dom_all := repeat keeps_dom_step.

Lemma keeps_dom_list_del e : keeps_dom (list_del e).
Proof. unfold list_del, __list_del. keeps_dom_all. Qed.

Lemma keeps_dom_list_first_entry w p k : keeps_dom (list_first_entry w p k).
Proof. unfold list_first_entry. keeps_dom_all. Qed.

Lemma keeps_dom_list_next_entry w p k : keeps_dom (list_next_entry w p k).
Proof. unfold list_next_entry. keeps_dom_all. Qed.

Section KeepsDomLoops.
Context {A : Type} (body : Z → A → M A).
Hypothesis Hbody : ∀ pos acc, keeps_dom (body pos acc).

Lemma keeps_dom_list_for_each_from head fuel :
  ∀ pos a, keeps_dom (list_for_each_from fuel head body pos a).
Proof.
  induction fuel as [|fuel IH]; intros pos a; simpl.
  - apply keeps_dom_fault.
  - case_decide; [apply keeps_dom_ret|].
    apply keeps_dom_bind; [apply Hbody|intros ?].
    apply keeps_dom_bind; [apply keeps_dom_load_next|intros ?]. apply IH.
Qed.

Lemma keeps_dom_list_for_each_entry_from w k head fuel :
  ∀ pos a, keeps_dom (list_for_each_entry_from w fuel k head body pos a).
Proof.
  induction fuel as [|fuel IH]; intros pos a; simpl.
  - apply keeps_dom_fault.
  - case_decide; [apply keeps_dom_ret|].
    apply keeps_dom_bind; [apply Hbody|intros ?].
    apply keeps_dom_bind; [apply keeps_dom_list_next_entry|intros ?]. apply IH.
Qed.

Lemma keeps_dom_list_for_each_entry_safe_from w k head fuel :
  ∀ pos n a, keeps_dom (list_for_each_entry_safe_from w fuel k head body pos n a).
Proof.
  induction fuel as [|fuel IH]; intros pos n a; simpl.
  - apply keeps_dom_fault.
  - case_decide; [apply keeps_dom_ret|].
    apply keeps_dom_bind; [apply Hbody|intros ?].
    apply keeps_dom_bind; [apply keeps_dom_list_next_entry|intros ?]. apply IH.
Qed.
End KeepsDomLoops.

(** X20.  No operation creates or destroys an object: in any memory,
    ring or not, when an operation returns, the live objects are the
    ones there were before.  The same holds of the three traversals
    when it holds of the loop body, and so of a traversal whose body
    calls [list_del]. *)
Theorem operations_keep_dom :
  (∀ x, keeps_dom (INIT_LIST_HEAD x))
  ∧ (∀ new head, keeps_dom (list_add new head))
  ∧ (∀ new head, keeps_dom (list_add_tail new head))
  ∧ (∀ e, keeps_dom (list_del e))
  ∧ (∀ head, keeps_dom (list_empty head))
  ∧ (∀ old new, keeps_dom (list_replace old new))
  ∧ (∀ old new, keeps_dom (list_replace_init old new))
  ∧ (∀ A fuel head (body : Z → A → M A) a,
       (∀ pos acc, keeps_dom (body pos acc)) →
       keeps_dom (list_for_each fuel head body a))
  ∧ (∀ A w fuel k head (body : Z → A → M A) a,
       (∀ pos acc, keeps_dom (body pos acc)) →
       keeps_dom (list_for_each_entry w fuel k head body a)
       ∧ keeps_dom (list_for_each_entry_safe w fuel k head body a))
  ∧ (∀ w fuel k head a,
       keeps_dom (list_for_each_entry_safe w fuel k head (visit_del w k) a)).
Proof.
  assert (Hsafe : ∀ A w fuel k head (body : Z → A → M A) a,
             (∀ pos acc, keeps_dom (body pos acc)) →
             keeps_dom (list_for_each_entry_safe w fuel k head body a)).
  { intros A w fuel k head body a Hb. unfold list_for_each_entry_safe.
    apply keeps_dom_bind; [apply keeps_dom_list_first_entry|intros ?].
    apply keeps_dom_bind; [apply keeps_dom_list_next_entry|intros ?].
    by apply keeps_dom_list_for_each_entry_safe_from. }
  split_and!.
  - intros x. unfold INIT_LIST_HEAD. keeps_dom_all.
  - intros new head. unfold list_add, __list_add. keeps_dom_all.
  - intros new head. unfold list_add_tail, __list_add. keeps_dom_all.
  - apply keeps_dom_list_del.
  - intros head. unfold list_empty.
    apply keeps_dom_bind; [apply keeps_dom_load_next|intros n].
    exact (keeps_dom_ret (bool_decide (n = head))).
  - intros old new. unfold list_replace. keeps_dom_all.
  - intros old new. unfold list_replace_init, list_replace, INIT_LIST_HEAD.
    keeps_dom_all.
  - intros A fuel head body a Hb. unfold list_for_each.
    apply keeps_dom_bind; [apply keeps_dom_load_next|intros ?].
    by apply keeps_dom_list_for_each_from.
  - intros A w fuel k head body a Hb. split; [|by apply Hsafe].
    unfold list_for_each_entry.
    apply keeps_dom_bind; [apply keeps_dom_list_first_entry|intros ?].
    by apply keeps_dom_list_for_each_entry_from.
  - intros w fuel k head a. apply Hsafe. intros pos acc.
    unfold visit_del. apply keeps_dom_bind; [apply keeps_dom_list_del|intros ?].
    apply keeps_dom_ret.
Qed.

Lemma operations_keep_dom_witness :
  keeps_dom (list_for_each_entry_safe 64 4 8 16 (visit_del 64 8) []).
Proof. apply operations_keep_dom. Defined.

(** ** Insertion next to any link *)

(** X21.  The second argument of an insertion need not be the head:
    for an entry [x] of a ring and a live link [new] outside it,
    [list_add new x] puts [new] right after [x] and [list_add_tail new x]
    puts it right before [x], the other entries keeping their places. *)
Theorem list_add_at_entry h head l1 x l2 new :
  ring h head (l1 ++ x :: l2) → live h new → new ∉ head :: l1 ++ x :: l2 →
  (∃ h', list_add new x h = Some (tt, h')
         ∧ ring h' head (l1 ++ x :: new :: l2))
  ∧ (∃ h', list_add_tail new x h = Some (tt, h')
           ∧ ring h' head (l1 ++ new :: x :: l2)).
Proof.
  intros R Lnew Hnew.
  pose proof (ring_rotate _ _ _ _ _ R) as Rx.
  assert (Hnew' : new ∉ x :: l2 ++ head :: l1) by set_solver.
  split.
  - destruct (list_add_ring _ _ _ _ Rx Lnew Hnew') as (h' & Hrun & R').
    exists h'. split; [done|].
    exact (ring_rotate h' x (new :: l2) head l1 R').
  - destruct (list_add_tail_ring _ _ _ _ Rx Lnew Hnew') as (h' & Hrun & R').
    exists h'. split; [done|].
    rewrite <- app_assoc in R'. simpl in R'.
    pose proof (ring_rotate h' x l2 head (l1 ++ [new]) R') as R''.
    by rewrite <- app_assoc in R''.
Qed.

Lemma list_add_at_entry_witness :
  (∃ h', list_add 80 48 mem_three = Some (tt, h')
         ∧ ring h' 16 ([32] ++ 48 :: 80 :: [64]))
  ∧ (∃ h', list_add_tail 80 48 mem_three = Some (tt, h')
           ∧ ring h' 16 ([32] ++ 80 :: 48 :: [64])).
Proof.
  apply (list_add_at_entry mem_three 16 [32] 48 [64] 80).
  - by_compute.
  - by_compute.
  - by_compute.
Defined.
